(** * geo-intel-offline: geohash index, point-in-polygon, confidence, resolvers

    A shallow embedding of the TypeScript sources
      src/geohash/index.ts, src/pip.ts, src/utils/confidence.ts,
      src/utils/polygon.ts, src/data/loader.ts, src/resolver/index.ts and
      src/resolver/reverse.ts
    followed by the properties established about them.

    Modelling conventions.
    - A JavaScript [number] holding a coordinate, a distance or a score is a
      rational [Q]; comparisons are the boolean tests of [QArith] and results
      are compared with [==].  The latitude and the longitude passed to
      [encode] are a [number]: a rational, an infinity or [NaN], of which
      every comparison is false.  The interval halving of the geohash codec only
      produces dyadic numbers; for a hash of at most 18 characters they are
      doubles, so that the source runs the same computation, and the
      statements that rest on exact halving are made for such hashes.
      The other products and quotients (the intersection of the ray test,
      the distances, the centroid, the score) are exact here, where the
      source rounds them to doubles.  [Infinity], which [distanceToPolygonEdge]
      returns for an empty ring, is a constructor of its own ([xnum]).
      [Math.sqrt] is a parameter of the development.
    - Counters, array lengths and loop indices are [nat]; the five-bit
      accumulator [ch] of the encoder is a [Z] with [Z.lor] and [Z.shiftl];
      country identifiers are [Z].
    - Strings are [string]s of ASCII code units; [trim], [toUpperCase] and
      [toLowerCase] act on the ASCII white space and letters.
    - A thrown [Error] is the [Err] constructor of [result]; the loops that
      [return]/[break] early are recursive functions that stop at the same
      place.
    - The three tables of a loaded [DataLoader] are association lists in the
      order in which [Object.keys]/[Object.entries] enumerate them; the key
      of a country is its identifier (the source converts between the
      identifier and its decimal string with [parseInt] and [toString]).
    - A coordinate of the polygon tables is the array [[lat, lon]] that
      the declaration of [PolygonData] documents, or [null].  The resolvers
      guard the conversion of an exterior with
      [Array.isArray(coord) && coord.length >= 2], which [null] fails, and
      convert the holes, and the exteriors in the second scan of [resolve],
      without a guard: there, reading an element of [null] is a
      [TypeError]. *)

From Stdlib Require Import ZArith QArith Qminmax List String Ascii Bool Lia Lqa.
Import ListNotations.

Local Open Scope Q_scope.

(** ** Errors *)

(** One constructor for each [throw] of the sources;
    [CoordinateTypeError] is the [TypeError] that reading [coord[0]] raises
    when [coord] is [null]. *)
Inductive error : Type :=
| LatitudeOutOfRange
| LongitudeOutOfRange
| EmptyGeohash
| InvalidGeohashCharacter (c : ascii)
| MetadataNotFound (countryId : Z)
| CountryNotFound (countryInput : string)
| PolygonNotFound (countryId : Z)
| InvalidPolygonData (countryId : Z)
| NoValidExteriors (countryId : Z)
| InvalidCoordinateFormat
| CoordinateTypeError.

Inductive result (A : Type) : Type :=
| Ok (a : A)
| Err (e : error).

Arguments Ok {A} a.
Arguments Err {A} e.

Definition bind {A B : Type} (r : result A) (k : A -> result B) : result B :=
  match r with
  | Ok a => k a
  | Err e => Err e
  end.

Notation "'do' x <- r ; k" := (bind r (fun x => k))
  (at level 10, x name, r at level 100, k at level 200).


(** ** Numbers *)

(** The [number] that a caller passes as a latitude or a longitude: a
    rational, an infinity, or [NaN]. *)
Inductive number : Type :=
| Fin (q : Q)
| PlusInfinity
| MinusInfinity
| NaN.

Coercion Fin : Q >-> number.

(** [x < bound], [x > bound] and [x >= bound]: each is false when [x] is
    [NaN]. *)
Definition numLt (x : number) (bound : Q) : bool :=
  match x with
  | Fin q => negb (Qle_bool bound q)
  | MinusInfinity => true
  | PlusInfinity | NaN => false
  end.

Definition numGt (x : number) (bound : Q) : bool :=
  match x with
  | Fin q => negb (Qle_bool q bound)
  | PlusInfinity => true
  | MinusInfinity | NaN => false
  end.

Definition numGe (x : number) (bound : Q) : bool :=
  match x with
  | Fin q => Qle_bool bound q
  | PlusInfinity => true
  | MinusInfinity | NaN => false
  end.

(** ** src/geohash/index.ts *)

Module Geohash.

Definition BASE32 : string := "0123456789bcdefghjkmnpqrstuvwxyz".

Definition GEOHASH_PRECISION : nat := 6.

Definition bitsPerChar : nat := 5.

Definition Range : Type := (Q * Q)%type.

Definition midpoint (r : Range) : Q := (fst r + snd r) / 2.

(** [BASE32[ch]] followed by [join('')]: an index outside the alphabet reads
    [undefined], which [join] renders as the empty string. *)
Definition base32At (ch : Z) : string :=
  if (ch <? 0)%Z then EmptyString
  else match String.get (Z.to_nat ch) BASE32 with
       | Some c => String c EmptyString
       | None => EmptyString
       end.

(** The state of the loop of [encode]. *)
Record EncodeState : Type := mkEncodeState {
  es_latRange : Range;
  es_lonRange : Range;
  es_ch : Z;
  es_geohash : string
}.

(** The position [bitsPerChar - 1 - Math.floor(i / 2) % bitsPerChar]. *)
Definition bitPosition (i : nat) : Z :=
  Z.of_nat (bitsPerChar - 1 - (Nat.div i 2) mod bitsPerChar).

(** One iteration of the loop of [encode], at index [i]. *)
Definition encodeStep (lat lon : number) (i : nat) (st : EncodeState)
    : EncodeState :=
  let st1 :=
    if Nat.even i then
      let mid := midpoint (es_lonRange st) in
      if numGe lon mid then
        mkEncodeState (es_latRange st) (mid, snd (es_lonRange st))
          (Z.lor (es_ch st) (Z.shiftl 1 (bitPosition i))) (es_geohash st)
      else
        mkEncodeState (es_latRange st) (fst (es_lonRange st), mid)
          (es_ch st) (es_geohash st)
    else
      let mid := midpoint (es_latRange st) in
      if numGe lat mid then
        mkEncodeState (mid, snd (es_latRange st)) (es_lonRange st)
          (Z.lor (es_ch st) (Z.shiftl 1 (bitPosition i))) (es_geohash st)
      else
        mkEncodeState (fst (es_latRange st), mid) (es_lonRange st)
          (es_ch st) (es_geohash st) in
  if Nat.eqb ((i + 1) mod bitsPerChar) 0 then
    mkEncodeState (es_latRange st1) (es_lonRange st1) 0
      (es_geohash st1 ++ base32At (es_ch st1))
  else st1.

(** [n] iterations of the loop, starting at index [i]. *)
Fixpoint encodeLoop (lat lon : number) (n i : nat) (st : EncodeState)
    : EncodeState :=
  match n with
  | O => st
  | S n' => encodeLoop lat lon n' (S i) (encodeStep lat lon i st)
  end.

Definition encodeInit : EncodeState :=
  mkEncodeState (-90, 90) (-180, 180) 0 EmptyString.

Definition encode (lat lon : number) (precision : nat) : result string :=
  if numLt lat (-90) || numGt lat 90 then Err LatitudeOutOfRange
  else if numLt lon (-180) || numGt lon 180 then Err LongitudeOutOfRange
  else Ok (es_geohash
             (encodeLoop lat lon (precision * bitsPerChar) 0 encodeInit)).

(** [BASE32.indexOf(char)], [None] for [-1]. *)
Fixpoint indexOfFrom (c : ascii) (s : string) (k : Z) : option Z :=
  match s with
  | EmptyString => None
  | String d s' => if Ascii.eqb d c then Some k else indexOfFrom c s' (k + 1)%Z
  end.

Definition indexOf (c : ascii) : option Z := indexOfFrom c BASE32 0%Z.

Record DecodeState : Type := mkDecodeState {
  ds_latRange : Range;
  ds_lonRange : Range;
  ds_isEven : bool
}.

(** The body of the inner loop of [decode] for bit [j] of [idx]. *)
Definition decodeBit (idx : Z) (j : nat) (st : DecodeState) : DecodeState :=
  let bit := Z.land (Z.shiftr idx (4 - Z.of_nat j)) 1 in
  if ds_isEven st then
    let mid := midpoint (ds_lonRange st) in
    if negb (bit =? 0)%Z then
      mkDecodeState (ds_latRange st) (mid, snd (ds_lonRange st)) false
    else
      mkDecodeState (ds_latRange st) (fst (ds_lonRange st), mid) false
  else
    let mid := midpoint (ds_latRange st) in
    if negb (bit =? 0)%Z then
      mkDecodeState (mid, snd (ds_latRange st)) (ds_lonRange st) true
    else
      mkDecodeState (fst (ds_latRange st), mid) (ds_lonRange st) true.

Definition decodeChar (idx : Z) (st : DecodeState) : DecodeState :=
  fold_left (fun s j => decodeBit idx j s) (seq 0 5) st.

Fixpoint decodeLoop (geohash : string) (st : DecodeState) : result DecodeState :=
  match geohash with
  | EmptyString => Ok st
  | String c rest =>
      match indexOf c with
      | None => Err (InvalidGeohashCharacter c)
      | Some idx => decodeLoop rest (decodeChar idx st)
      end
  end.

Record Decoded : Type := mkDecoded {
  lat : Q;
  lon : Q;
  latRange : Range;
  lonRange : Range
}.

Definition decodeInit : DecodeState :=
  mkDecodeState (-90, 90) (-180, 180) true.

Definition decode (geohash : string) : result Decoded :=
  match geohash with
  | EmptyString => Err EmptyGeohash
  | _ =>
      do st <- decodeLoop geohash decodeInit;
      Ok (mkDecoded (midpoint (ds_latRange st)) (midpoint (ds_lonRange st))
            (ds_latRange st) (ds_lonRange st))
  end.

(** [Math.max(lo, Math.min(hi, x))]. *)
Definition clamp (lo hi x : Q) : Q := Qmax lo (Qmin hi x).

(** The two nested loops of [getNeighbors] over [dlat] and [dlon]. *)
Fixpoint neighborsInner (lat0 lon0 dlat : Q) (precision : nat)
    (dlons : list Q) (acc : list string) : result (list string) :=
  match dlons with
  | [] => Ok acc
  | dlon :: rest =>
      if Qeq_bool dlat 0 && Qeq_bool dlon 0 then
        neighborsInner lat0 lon0 dlat precision rest acc
      else
        let newLat := clamp (-90) 90 (lat0 + dlat) in
        let newLon := clamp (-180) 180 (lon0 + dlon) in
        do h <- encode newLat newLon precision;
        neighborsInner lat0 lon0 dlat precision rest (acc ++ [h])
  end.

Fixpoint neighborsOuter (lat0 lon0 : Q) (precision : nat)
    (dlats dlons : list Q) (acc : list string) : result (list string) :=
  match dlats with
  | [] => Ok acc
  | dlat :: rest =>
      do acc' <- neighborsInner lat0 lon0 dlat precision dlons acc;
      neighborsOuter lat0 lon0 precision rest dlons acc'
  end.

Definition getNeighbors (geohash : string) : result (list string) :=
  do d <- decode geohash;
  let latStep := snd (latRange d) - fst (latRange d) in
  let lonStep := snd (lonRange d) - fst (lonRange d) in
  neighborsOuter (lat d) (lon d) (String.length geohash)
    [- latStep; 0; latStep] [- lonStep; 0; lonStep] [].

(** A valid geohash: not empty, every character in the alphabet. *)
Fixpoint allBase32 (g : string) : bool :=
  match g with
  | EmptyString => true
  | String c rest =>
      match indexOf c with Some _ => allBase32 rest | None => false end
  end.

Definition validGeohash (g : string) : bool :=
  match g with EmptyString => false | _ => allBase32 g end.

End Geohash.

(** ** src/pip.ts *)

Module Pip.

Definition Point : Type := (Q * Q)%type.
Definition Polygon : Type := list Point.

(** [a < b] on numbers. *)
Definition Qltb (a b : Q) : bool := negb (Qle_bool b a).

(** The body of the loop of [pointInPolygon] for the edge from
    [polygon[j]] to [polygon[i]]. *)
Definition crossing (point p_i p_j : Point) (inside : bool) : bool :=
  let '(lat, lon) := point in
  let '(lat_i, lon_i) := p_i in
  let '(lat_j, lon_j) := p_j in
  if negb (Bool.eqb (Qltb lat lat_i) (Qltb lat lat_j)) then
    let intersectLon :=
      if negb (Qeq_bool lon_j lon_i) then
        (lat - lat_i) * (lon_j - lon_i) / (lat_j - lat_i) + lon_i
      else lon_i in
    if Qltb lon intersectLon then negb inside else inside
  else inside.

(** The loop over [i], with [p_j] the vertex visited before ([j = i]). *)
Fixpoint rayLoop (point : Point) (p_j : Point) (rest : Polygon)
    (inside : bool) : bool :=
  match rest with
  | [] => inside
  | p_i :: rest' => rayLoop point p_i rest' (crossing point p_i p_j inside)
  end.

Definition pointInPolygon (point : Point) (polygon : Polygon) : bool :=
  if (List.length polygon <? 3)%nat then false
  else rayLoop point (last polygon (0, 0)) polygon false.

(** The loop over the holes, leaving at the first hole that contains the
    point. *)
Fixpoint inNoHole (point : Point) (holes : list Polygon) : bool :=
  match holes with
  | [] => true
  | hole :: rest =>
      if pointInPolygon point hole then false else inNoHole point rest
  end.

Definition pointInPolygonWithHoles (point : Point) (exterior : Polygon)
    (holes : list Polygon) : bool :=
  if negb (pointInPolygon point exterior) then false
  else inNoHole point holes.

(** Numbers extended with [Infinity]. *)
Inductive xnum : Type :=
| Finite (q : Q)
| Infinity.

(** [Math.min] on extended numbers. *)
Definition xmin (a b : xnum) : xnum :=
  match a, b with
  | Infinity, _ => b
  | _, Infinity => a
  | Finite x, Finite y => Finite (Qmin x y)
  end.

Definition xle (a b : xnum) : Prop :=
  match a, b with
  | _, Infinity => True
  | Infinity, Finite _ => False
  | Finite x, Finite y => x <= y
  end.

Definition xeq (a b : xnum) : Prop :=
  match a, b with
  | Infinity, Infinity => True
  | Finite x, Finite y => x == y
  | _, _ => False
  end.

Definition sq (x : Q) : Q := x * x.

Section Distance.

(** [Math.sqrt]. *)
Variable sqrt : Q -> Q.

(** The distance from [point] to the segment from [p_i] to [p_j]. *)
Definition segmentDistance (point p_i p_j : Point) : Q :=
  let '(lat, lon) := point in
  let '(lat_i, lon_i) := p_i in
  let '(lat_j, lon_j) := p_j in
  let dx := lon_j - lon_i in
  let dy := lat_j - lat_i in
  if Qeq_bool dx 0 && Qeq_bool dy 0 then
    sqrt (sq (lat - lat_i) + sq (lon - lon_i))
  else
    let t := Qmax 0 (Qmin 1 (((lat - lat_i) * dy + (lon - lon_i) * dx)
                               / (dx * dx + dy * dy))) in
    let projLat := lat_i + t * dy in
    let projLon := lon_i + t * dx in
    sqrt (sq (lat - projLat) + sq (lon - projLon)).

Fixpoint distanceLoop (point : Point) (p_j : Point) (rest : Polygon)
    (minDist : xnum) : xnum :=
  match rest with
  | [] => minDist
  | p_i :: rest' =>
      distanceLoop point p_i rest'
        (xmin minDist (Finite (segmentDistance point p_i p_j)))
  end.

Definition distanceToPolygonEdge (point : Point) (polygon : Polygon) : xnum :=
  match polygon with
  | [] => Infinity
  | _ => distanceLoop point (last polygon (0, 0)) polygon Infinity
  end.

End Distance.

End Pip.

(** ** src/utils/confidence.ts *)

Module Confidence.
Import Pip.

(** The mapping from the distance to the nearest edge to the base
    confidence; [Infinity >= 0.1] holds. *)
Definition baseConfidence (minDist : xnum) : Q :=
  match minDist with
  | Infinity => 0.98
  | Finite d =>
      if Qle_bool 0.1 d then 0.98
      else if Qle_bool 0.05 d then 0.88 + (d - 0.05) / 0.05 * 0.10
      else if Qle_bool 0.01 d then 0.75 + (d - 0.01) / 0.04 * 0.13
      else 0.70 + d / 0.01 * 0.05
  end.

(** The ambiguity penalty and the final clamp. *)
Definition penalize (baseConf candidateCount : Q) : Q :=
  let baseConf' :=
    if Qltb 1 candidateCount then
      baseConf - Qmin 0.2 ((candidateCount - 1) * 0.05)
    else baseConf in
  Qmax 0.5 (Qmin 1.0 baseConf').

Local Open Scope string_scope.

Definition getConfidenceLabel (confidence : Q) : string :=
  if Qle_bool 0.90 confidence then "high"
  else if Qle_bool 0.75 confidence then "medium"
  else "low".

Local Close Scope string_scope.

Section Scorer.

Variable sqrt : Q -> Q.

(** The loop over the holes, starting from the distance to the exterior. *)
Fixpoint minOverHoles (point : Point) (holes : list Polygon)
    (minDist : xnum) : xnum :=
  match holes with
  | [] => minDist
  | hole :: rest =>
      minOverHoles point rest
        (xmin minDist (distanceToPolygonEdge sqrt point hole))
  end.

Definition minEdgeDistance (point : Point) (polygon : Polygon)
    (holes : list Polygon) : xnum :=
  minOverHoles point holes (distanceToPolygonEdge sqrt point polygon).

Definition calculateConfidence (point : Point) (polygon : Polygon)
    (holes : list Polygon) (candidateCount : Q) : Q :=
  penalize (baseConfidence (minEdgeDistance point polygon holes))
    candidateCount.

End Scorer.

End Confidence.

(** ** src/utils/polygon.ts *)

Module PolygonUtils.
Import Pip.

(** [xs.reduce((a, b) => a + b, 0)]. *)
Definition sum (xs : list Q) : Q := fold_left Qplus xs 0.

Definition getPolygonCentroid (polygon : Polygon) : Point :=
  match polygon with
  | [] => (0.0, 0.0)
  | _ =>
      let lats := map fst polygon in
      let lons := map snd polygon in
      let avgLat := sum lats / inject_Z (Z.of_nat (List.length lats)) in
      let avgLon := sum lons / inject_Z (Z.of_nat (List.length lons)) in
      (avgLat, avgLon)
  end.

(** [Math.min(...xs)] and [Math.max(...xs)] on a list that starts with
    [x]. *)
Definition mathMin (x : Q) (rest : list Q) : Q := fold_left Qmin rest x.
Definition mathMax (x : Q) (rest : list Q) : Q := fold_left Qmax rest x.

(** The array [[minLat, maxLat, minLon, maxLon]]. *)
Record BoundingBox : Type := mkBoundingBox {
  minLat : Q;
  maxLat : Q;
  minLon : Q;
  maxLon : Q
}.

Definition calculateBoundingBox (polygon : Polygon) : BoundingBox :=
  match polygon with
  | [] => mkBoundingBox 0.0 0.0 0.0 0.0
  | p :: rest =>
      let lats := map fst rest in
      let lons := map snd rest in
      mkBoundingBox (mathMin (fst p) lats) (mathMax (fst p) lats)
        (mathMin (snd p) lons) (mathMax (snd p) lons)
  end.

(** [coordsList.map(p => [p[1], p[0]])]: from [[lon, lat]] to
    [[lat, lon]]. *)
Definition convertGeojsonCoordsToLatLon (coordsList : list (Q * Q))
    : Polygon :=
  map (fun p => (snd p, fst p)) coordsList.

End PolygonUtils.

(** ** src/data/loader.ts *)

Module Loader.
Import Pip.

Record CountryMetadata : Type := mkCountryMetadata {
  name : string;
  iso2 : string;
  iso3 : string;
  continent : string;
  timezone : string
}.

(** A coordinate of the polygon tables as the data file holds it: the array
    [[lat, lon]], or [null]. *)
Definition Coord : Type := option Point.

Definition Ring : Type := list Coord.

(** The ring whose coordinates are the given points. *)
Definition ringOf (points : Polygon) : Ring := map Some points.

(** [holes], [multi] and [exteriors] are optional members; the resolvers
    also test [exterior] for presence. *)
Record PolygonData : Type := mkPolygonData {
  exterior : option Ring;
  holes : option (list Ring);
  multi : bool;
  exteriors : option (list Ring)
}.

(** A loaded [DataLoader]. *)
Record DataLoader : Type := mkDataLoader {
  geohashIndex : list (string * list Z);
  polygons : list (Z * PolygonData);
  metadata : list (Z * CountryMetadata)
}.

(** Property access [table[key]], [None] for [undefined]. *)
Fixpoint lookup {K V : Type} (eqb : K -> K -> bool) (key : K)
    (table : list (K * V)) : option V :=
  match table with
  | [] => None
  | (k, v) :: rest => if eqb k key then Some v else lookup eqb key rest
  end.

(** [Array.from(new Set(xs))]: the first occurrences, in insertion order. *)
Definition setAdd {K : Type} (eqb : K -> K -> bool) (seen : list K) (x : K)
    : list K :=
  if existsb (eqb x) seen then seen else seen ++ [x].

Definition dedupe {K : Type} (eqb : K -> K -> bool) (xs : list K) : list K :=
  fold_left (setAdd eqb) xs [].

(** The loop of [getCandidateCountries] over the prefixes, longest first. *)
Fixpoint prefixCandidates (index : list (string * list Z)) (geohash : string)
    (prefixLen : nat) : list Z :=
  match prefixLen with
  | O => []
  | S n =>
      match lookup String.eqb (substring 0 prefixLen geohash) index with
      | Some ids => ids
      | None => prefixCandidates index geohash n
      end
  end.

Definition getCandidateCountries (loader : DataLoader) (geohash : string)
    : list Z :=
  let index := geohashIndex loader in
  let candidates :=
    match lookup String.eqb geohash index with
    | Some ids => ids
    | None => []
    end in
  let candidates :=
    if (List.length candidates =? 0)%nat
    then prefixCandidates index geohash (String.length geohash)
    else candidates in
  dedupe Z.eqb candidates.

Definition getPolygon (loader : DataLoader) (countryId : Z)
    : option PolygonData :=
  lookup Z.eqb countryId (polygons loader).

Definition getMetadata (loader : DataLoader) (countryId : Z)
    : option CountryMetadata :=
  lookup Z.eqb countryId (metadata loader).

(** [Object.keys(metadata).map(id => parseInt(id, 10))]. *)
Definition countryIds (loader : DataLoader) : list Z :=
  map fst (metadata loader).

End Loader.

(** ** src/resolver/index.ts *)

Module Resolver.
Import Pip Loader.

Record ResolutionResult : Type := mkResolutionResult {
  countryId : option Z;
  countryName : option string;
  iso2 : option string;
  iso3 : option string;
  continent : option string;
  timezone : option string;
  confidence : Q
}.

Definition noMatch : ResolutionResult :=
  mkResolutionResult None None None None None None 0.0.

(** [const exteriors = []; if (polygonData.multi && polygonData.exteriors)
    ... else if (polygonData.exterior) ...], written out in both scans of
    [resolve] and in [resolveByCountry]. *)
Definition exteriorsOf (polygonData : PolygonData) : list Ring :=
  match multi polygonData, exteriors polygonData with
  | true, Some es => es
  | _, _ =>
      match exterior polygonData with
      | Some e => [e]
      | None => []
      end
  end.

Definition isEmpty {A : Type} (l : list A) : bool :=
  match l with [] => true | _ => false end.

(** [exterior.map(coord => { if (Array.isArray(coord) && coord.length >= 2)
    return [coord[0], coord[1]]; throw new Error('Invalid coordinate
    format: ...') })], the conversion of the first scan of [resolve] and of
    [resolveByCountry]. *)
Fixpoint checkedPoints (ring : Ring) : result Polygon :=
  match ring with
  | [] => Ok []
  | Some coord :: rest =>
      do points <- checkedPoints rest;
      Ok ((fst coord, snd coord) :: points)
  | None :: _ => Err InvalidCoordinateFormat
  end.

(** [ring.map(coord => [coord[0], coord[1]])], the conversion of the holes
    and of the exteriors of the second scan: reading [coord[0]] of [null]
    is a [TypeError]. *)
Fixpoint toPoints (ring : Ring) : result Polygon :=
  match ring with
  | [] => Ok []
  | Some coord :: rest =>
      do points <- toPoints rest;
      Ok ((fst coord, snd coord) :: points)
  | None :: _ => Err CoordinateTypeError
  end.

(** The loop [for (const hole of polygonData.holes)]: the non-empty holes,
    converted to points. *)
Fixpoint convertHoles (hs : list Ring) : result (list Polygon) :=
  match hs with
  | [] => Ok []
  | hole :: rest =>
      if isEmpty hole then convertHoles rest
      else
        do points <- toPoints hole;
        do more <- convertHoles rest;
        Ok (points :: more)
  end.

Definition holesOf (polygonData : PolygonData) : result (list Polygon) :=
  match holes polygonData with
  | Some hs => convertHoles hs
  | None => Ok []
  end.

(** Step 3: the candidates of the eight neighbours. *)
Definition neighborCandidates (loader : DataLoader) (geohash : string)
    : result (list Z) :=
  do neighbors <- Geohash.getNeighbors geohash;
  Ok (dedupe Z.eqb (flat_map (getCandidateCountries loader) neighbors)).

(** Step 3b: the set of the neighbours and of their neighbours. *)
Fixpoint extendedNeighbors (neighbors : list string) (seen : list string)
    : result (list string) :=
  match neighbors with
  | [] => Ok seen
  | neighborHash :: rest =>
      let seen1 := setAdd String.eqb seen neighborHash in
      do more <- Geohash.getNeighbors neighborHash;
      extendedNeighbors rest (fold_left (setAdd String.eqb) more seen1)
  end.

Definition extendedCandidates (loader : DataLoader) (geohash : string)
    : result (list Z) :=
  do neighbors <- Geohash.getNeighbors geohash;
  do extended <- extendedNeighbors neighbors [];
  Ok (dedupe Z.eqb
        (flat_map (getCandidateCountries loader)
           (filter (fun h => negb (String.eqb h geohash)) extended))).

(** Steps 2 to 3c. *)
Definition findCandidates (loader : DataLoader) (geohash : string)
    : result (list Z) :=
  let candidates := getCandidateCountries loader geohash in
  do candidates <-
    (if (List.length candidates =? 0)%nat
     then neighborCandidates loader geohash else Ok candidates);
  do candidates <-
    (if (List.length candidates =? 0)%nat
     then extendedCandidates loader geohash else Ok candidates);
  Ok (if (List.length candidates =? 0)%nat
      then countryIds loader else candidates).

Section Scans.

Variable sqrt : Q -> Q.

(** Step 4, the loop over the exteriors of one candidate: the confidence of
    the first exterior that contains the point. *)
Fixpoint scanExteriors (point : Point) (polygonData : PolygonData)
    (candidateCount : Q) (exts : list Ring) : result (option Q) :=
  match exts with
  | [] => Ok None
  | ext :: rest =>
      if isEmpty ext then scanExteriors point polygonData candidateCount rest
      else
        do exteriorPolygon <- checkedPoints ext;
        do holes <- holesOf polygonData;
        if pointInPolygonWithHoles point exteriorPolygon holes then
          Ok (Some (Confidence.calculateConfidence sqrt point exteriorPolygon
                      holes candidateCount))
        else scanExteriors point polygonData candidateCount rest
  end.

(** Step 4, the loop over the candidates; [count] is [candidates.length]. *)
Fixpoint primaryMatches (loader : DataLoader) (point : Point) (count : Q)
    (candidates : list Z) : result (list (Z * Q)) :=
  match candidates with
  | [] => Ok []
  | id :: rest =>
      match getPolygon loader id with
      | None => primaryMatches loader point count rest
      | Some polygonData =>
          do found <- scanExteriors point polygonData count
                        (exteriorsOf polygonData);
          do matches <- primaryMatches loader point count rest;
          Ok (match found with
              | Some c => (id, c) :: matches
              | None => matches
              end)
      end
  end.

(** Step 5, the loop over the exteriors of one country. *)
Fixpoint scanExteriorsFallback (point : Point) (polygonData : PolygonData)
    (exts : list Ring) : result (option Q) :=
  match exts with
  | [] => Ok None
  | ext :: rest =>
      if isEmpty ext then scanExteriorsFallback point polygonData rest
      else
        do exteriorPolygon <- toPoints ext;
        do holes <- holesOf polygonData;
        if pointInPolygonWithHoles point exteriorPolygon holes then
          Ok (Some (Confidence.calculateConfidence sqrt point exteriorPolygon
                      holes 1 * 0.95))
        else scanExteriorsFallback point polygonData rest
  end.

(** Step 5, the loop over [Object.keys(metadata)]. *)
Fixpoint fallbackMatches (loader : DataLoader) (point : Point)
    (candidates : list Z) (ids : list Z) : result (list (Z * Q)) :=
  match ids with
  | [] => Ok []
  | id :: rest =>
      if existsb (Z.eqb id) candidates then
        fallbackMatches loader point candidates rest
      else
        match lookup Z.eqb id (polygons loader) with
        | None => fallbackMatches loader point candidates rest
        | Some polygonData =>
            do found <- scanExteriorsFallback point polygonData
                          (exteriorsOf polygonData);
            do matches <- fallbackMatches loader point candidates rest;
            Ok (match found with
                | Some c => (id, c) :: matches
                | None => matches
                end)
        end
  end.

(** [matches.sort((a, b) => b.confidence - a.confidence)]: a stable sort by
    decreasing confidence. *)
Fixpoint insertMatch (m : Z * Q) (sorted : list (Z * Q)) : list (Z * Q) :=
  match sorted with
  | [] => [m]
  | m' :: rest =>
      if Qle_bool (snd m') (snd m) then m :: sorted
      else m' :: insertMatch m rest
  end.

Definition sortMatches (matches : list (Z * Q)) : list (Z * Q) :=
  fold_right insertMatch [] matches.

(** The matches after steps 4 and 5. *)
Definition allMatches (loader : DataLoader) (point : Point)
    (candidates : list Z) : result (list (Z * Q)) :=
  do matches <-
    primaryMatches loader point
      (inject_Z (Z.of_nat (List.length candidates))) candidates;
  if (List.length matches =? 0)%nat
  then fallbackMatches loader point candidates (countryIds loader)
  else Ok matches.

(** The end of [resolve]: the best match and its metadata. *)
Definition selectBest (loader : DataLoader) (matches : list (Z * Q))
    : result ResolutionResult :=
  match matches with
  | [] => Ok noMatch
  | first :: _ =>
      let bestMatch := hd first (sortMatches matches) in
      match getMetadata loader (fst bestMatch) with
      | None => Err (MetadataNotFound (fst bestMatch))
      | Some meta =>
          Ok (mkResolutionResult (Some (fst bestMatch))
                (Some (Loader.name meta)) (Some (Loader.iso2 meta))
                (Some (Loader.iso3 meta)) (Some (Loader.continent meta))
                (Some (Loader.timezone meta)) (snd bestMatch))
      end
  end.

(** [resolve], on a latitude and a longitude that are numbers (what [NaN]
    does to the range guards is seen in [encode]). *)
Definition resolve (lat lon : Q) (loader : DataLoader)
    : result ResolutionResult :=
  let point : Point := (lat, lon) in
  do geohash <- Geohash.encode lat lon Geohash.GEOHASH_PRECISION;
  do candidates <- findCandidates loader geohash;
  if (List.length candidates =? 0)%nat then Ok noMatch
  else
    do matches <- allMatches loader point candidates;
    selectBest loader matches.

End Scans.

End Resolver.

(** ** src/resolver/reverse.ts *)

Module Reverse.
Import Pip Loader.

Record ReverseResolutionResult : Type := mkReverseResolutionResult {
  latitude : option Q;
  longitude : option Q;
  countryName : option string;
  iso2 : option string;
  iso3 : option string;
  continent : option string;
  timezone : option string;
  confidence : Q
}.

(** White space removed by [trim]. *)
Definition isWhitespace (c : ascii) : bool :=
  let n := nat_of_ascii c in
  ((9 <=? n) && (n <=? 13) || (n =? 32))%nat.

Fixpoint trimStart (s : string) : string :=
  match s with
  | EmptyString => EmptyString
  | String c rest => if isWhitespace c then trimStart rest else s
  end.

Fixpoint trimEnd (s : string) : string :=
  match s with
  | EmptyString => EmptyString
  | String c rest =>
      match trimEnd rest with
      | EmptyString => if isWhitespace c then EmptyString
                       else String c EmptyString
      | rest' => String c rest'
      end
  end.

Definition trim (s : string) : string := trimEnd (trimStart s).

Fixpoint mapString (f : ascii -> ascii) (s : string) : string :=
  match s with
  | EmptyString => EmptyString
  | String c rest => String (f c) (mapString f rest)
  end.

Definition upperChar (c : ascii) : ascii :=
  let n := nat_of_ascii c in
  if ((97 <=? n) && (n <=? 122))%nat then ascii_of_nat (n - 32) else c.

Definition lowerChar (c : ascii) : ascii :=
  let n := nat_of_ascii c in
  if ((65 <=? n) && (n <=? 90))%nat then ascii_of_nat (n + 32) else c.

Definition toUpperCase : string -> string := mapString upperChar.
Definition toLowerCase : string -> string := mapString lowerChar.

(** [s.replace(/c/g, ' ')]. *)
Definition replaceWithSpace (c : ascii) : string -> string :=
  mapString (fun d => if Ascii.eqb d c then " "%char else d).

(** [s.includes(sub)]. *)
Fixpoint includes (s sub : string) : bool :=
  if prefix sub s then true
  else match s with
       | EmptyString => false
       | String _ rest => includes rest sub
       end.

Definition normalizeCountryName (name : string) : string :=
  replaceWithSpace "-"%char
    (replaceWithSpace "_"%char (toLowerCase (trim name))).

(** The three exact tests made on one record by the first loop. *)
Definition iso2Matches (normalizedInput : string) (meta : CountryMetadata)
    : bool :=
  String.eqb (toUpperCase (Loader.iso2 meta)) normalizedInput.

Definition iso3Matches (normalizedInput : string) (meta : CountryMetadata)
    : bool :=
  String.eqb (toUpperCase (Loader.iso3 meta)) normalizedInput.

Definition nameMatches (normalizedName : string) (meta : CountryMetadata)
    : bool :=
  String.eqb (normalizeCountryName (Loader.name meta)) normalizedName.

(** The first loop of [findCountryByNameOrIso]. *)
Fixpoint exactLoop (normalizedInput normalizedName : string)
    (entries : list (Z * CountryMetadata)) : option (Z * CountryMetadata) :=
  match entries with
  | [] => None
  | (countryId, countryMeta) :: rest =>
      if iso2Matches normalizedInput countryMeta then
        Some (countryId, countryMeta)
      else if iso3Matches normalizedInput countryMeta then
        Some (countryId, countryMeta)
      else if nameMatches normalizedName countryMeta then
        Some (countryId, countryMeta)
      else exactLoop normalizedInput normalizedName rest
  end.

Definition partialMatches (normalizedName : string) (meta : CountryMetadata)
    : bool :=
  let normalizedMetaName := normalizeCountryName (Loader.name meta) in
  includes normalizedName normalizedMetaName
  || includes normalizedMetaName normalizedName.

(** The second loop of [findCountryByNameOrIso]. *)
Fixpoint partialLoop (normalizedName : string)
    (entries : list (Z * CountryMetadata)) : option (Z * CountryMetadata) :=
  match entries with
  | [] => None
  | (countryId, countryMeta) :: rest =>
      if partialMatches normalizedName countryMeta then
        Some (countryId, countryMeta)
      else partialLoop normalizedName rest
  end.

Definition findCountryByNameOrIso (countryInput : string)
    (loader : DataLoader) : option (Z * CountryMetadata) :=
  let metadata := Loader.metadata loader in
  let normalizedInput := toUpperCase (trim countryInput) in
  let normalizedName := normalizeCountryName countryInput in
  match exactLoop normalizedInput normalizedName metadata with
  | Some found => Some found
  | None => partialLoop normalizedName metadata
  end.

(** The loop [for (const ext of exteriors)]: the centroids of the non-empty
    exteriors. *)
Fixpoint centroids (exteriors : list Ring) : result (list Point) :=
  match exteriors with
  | [] => Ok []
  | ext :: rest =>
      if Resolver.isEmpty ext then centroids rest
      else
        do exteriorPolygon <- Resolver.checkedPoints ext;
        do more <- centroids rest;
        Ok (PolygonUtils.getPolygonCentroid exteriorPolygon :: more)
  end.

Definition resolveByCountry (countryInput : string) (loader : DataLoader)
    : result ReverseResolutionResult :=
  match findCountryByNameOrIso countryInput loader with
  | None => Err (CountryNotFound countryInput)
  | Some (countryId, metadata) =>
      match getPolygon loader countryId with
      | None => Err (PolygonNotFound countryId)
      | Some polygonData =>
          let exteriors := Resolver.exteriorsOf polygonData in
          if (List.length exteriors =? 0)%nat
          then Err (InvalidPolygonData countryId)
          else
            do allCentroids <- centroids exteriors;
            if (List.length allCentroids =? 0)%nat
            then Err (NoValidExteriors countryId)
            else
              let n := inject_Z (Z.of_nat (List.length allCentroids)) in
              let centroidLat := PolygonUtils.sum (map fst allCentroids) / n in
              let centroidLon := PolygonUtils.sum (map snd allCentroids) / n in
              Ok (mkReverseResolutionResult (Some centroidLat)
                    (Some centroidLon) (Some (Loader.name metadata))
                    (Some (Loader.iso2 metadata)) (Some (Loader.iso3 metadata))
                    (Some (Loader.continent metadata))
                    (Some (Loader.timezone metadata)) 1.0)
      end
  end.

End Reverse.

(** ** Sample data

    A rational approximation of [Math.sqrt] (the integer square root of the
    argument scaled by [2 ^ 64]) and a small store, to run the resolvers on
    concrete inputs. *)

Module Sample.
Import Pip Loader.
Local Open Scope string_scope.

Definition sqrtApprox (x : Q) : Q :=
  Qmake (Z.sqrt (Qnum x * 2 ^ 64 / QDen x)) (2 ^ 32).

Definition square (lo hi : Q) : Polygon :=
  [(lo, lo); (lo, hi); (hi, hi); (hi, lo)].

(** Two countries; the index only knows the first one, under the one-letter
    prefix "h". *)
Definition loader : DataLoader :=
  mkDataLoader
    [("h", [1%Z])]
    [(1%Z, mkPolygonData (Some (ringOf (square 0 4)))
             (Some [ringOf (square 1 2)]) false None);
     (2%Z, mkPolygonData None None true
             (Some [ringOf (square 20 21); []; ringOf (square 10 11)]))]
    [(1%Z, mkCountryMetadata "Atlantis" "AT" "ATL" "Europe" "Europe/Atlantis");
     (2%Z, mkCountryMetadata "Borduria" "BO" "BOR" "Europe" "Europe/Szohod")].

End Sample.

(** * Properties *)

(** [lra] does not divide: the inverses of the numeric constants are
    computed first. *)
Ltac qconst :=
  unfold Qdiv in *;
  repeat match goal with
  | |- context [Qinv (Qmake ?n ?d)] =>
      let v := eval vm_compute in (Qinv (Qmake n d)) in
      change (Qinv (Qmake n d)) with v
  | H : context [Qinv (Qmake ?n ?d)] |- _ =>
      let v := eval vm_compute in (Qinv (Qmake n d)) in
      change (Qinv (Qmake n d)) with v in H
  end.

(** ** Strings and the error monad *)

Lemma length_append (s t : string) :
  String.length (s ++ t) = (String.length s + String.length t)%nat.
Proof.
  induction s as [|c s IH]; simpl; [reflexivity | now rewrite IH].
Qed.

Lemma bind_ok {A B : Type} (r : result A) (k : A -> result B) (b : B) :
  bind r k = Ok b -> exists a, r = Ok a /\ k a = Ok b.
Proof.
  destruct r as [a|e]; simpl; intros H; [eauto | discriminate].
Qed.

(** ** Comparisons of rationals *)

Lemma Qle_bool_cases (a b : Q) :
  (Qle_bool a b = true /\ a <= b) \/ (Qle_bool a b = false /\ b < a).
Proof.
  destruct (Qle_bool a b) eqn:E.
  - left. split; [reflexivity | now apply Qle_bool_iff].
  - right. split; [reflexivity|].
    apply Qnot_le_lt. intros H. apply Qle_bool_iff in H. congruence.
Qed.

Ltac qcases a b :=
  let H := fresh "Hc" in
  let E := fresh "E" in
  destruct (Qle_bool_cases a b) as [[E H]|[E H]]; rewrite ?E; clear E.

(** ** The geohash codec *)

Module GeohashProps.
Import Geohash.

(** The guards of [encode] on a rational. *)
Lemma numLt_Fin (q bound : Q) : numLt q bound = true <-> q < bound.
Proof.
  simpl. qcases bound q; simpl; split; intros H; try congruence; lra.
Qed.

Lemma numGt_Fin (q bound : Q) : numGt q bound = true <-> bound < q.
Proof.
  simpl. qcases q bound; simpl; split; intros H; try congruence; lra.
Qed.

Lemma numLt_Fin_false (q bound : Q) : numLt q bound = false <-> bound <= q.
Proof.
  simpl. qcases bound q; simpl; split; intros H; try congruence; lra.
Qed.

Lemma numGt_Fin_false (q bound : Q) : numGt q bound = false <-> q <= bound.
Proof.
  simpl. qcases q bound; simpl; split; intros H; try congruence; lra.
Qed.

Lemma allBase32_append (s t : string) :
  allBase32 (s ++ t) = allBase32 s && allBase32 t.
Proof.
  induction s as [|c s IH]; simpl; [reflexivity|].
  destruct (indexOf c); [exact IH | reflexivity].
Qed.

(** Every index below 32 reads one character of the alphabet, and
    [indexOf] finds that index back. *)
Lemma base32At_indexOf (ch : Z) :
  (0 <= ch < 32)%Z ->
  exists c, base32At ch = String c EmptyString /\ indexOf c = Some ch.
Proof.
  intros H.
  assert (Hn : exists n, ch = Z.of_nat n /\ (n < 32)%nat).
  { exists (Z.to_nat ch). lia. }
  destruct Hn as [n [-> Hlt]].
  do 32 (destruct n as [|n]; [eexists; split; reflexivity|]).
  lia.
Qed.

Lemma bitPosition_range (i : nat) : (0 <= bitPosition i <= 4)%Z.
Proof.
  unfold bitPosition, bitsPerChar. lia.
Qed.

Lemma lor_bit_range (ch k : Z) :
  (0 <= ch < 32)%Z -> (0 <= k <= 4)%Z ->
  (0 <= Z.lor ch (Z.shiftl 1 k) < 32)%Z.
Proof.
  intros Hch Hk.
  assert (Hk' : (k = 0 \/ k = 1 \/ k = 2 \/ k = 3 \/ k = 4)%Z) by lia.
  assert (Hn : exists n, ch = Z.of_nat n /\ (n < 32)%nat).
  { exists (Z.to_nat ch). lia. }
  destruct Hn as [n [-> Hlt]].
  do 32 (destruct n as [|n];
         [destruct Hk' as [Hk'|[Hk'|[Hk'|[Hk'|Hk']]]]; subst k; vm_compute;
          split; congruence|]).
  lia.
Qed.

Lemma div5_step (i : nat) :
  ((i + 1) mod 5 = 0 -> S i / 5 = i / 5 + 1)%nat
  /\ ((i + 1) mod 5 <> 0 -> S i / 5 = i / 5)%nat.
Proof.
  replace (i + 1)%nat with (S i) by lia.
  pose proof (Nat.div_mod_eq i 5).
  pose proof (Nat.div_mod_eq (S i) 5).
  pose proof (Nat.mod_upper_bound i 5).
  pose proof (Nat.mod_upper_bound (S i) 5).
  lia.
Qed.

(** What the loop of [encode] maintains after [i] iterations. *)
Definition encodeInv (i : nat) (st : EncodeState) : Prop :=
  (0 <= es_ch st < 32)%Z
  /\ String.length (es_geohash st) = (i / 5)%nat
  /\ allBase32 (es_geohash st) = true.

Lemma encodeStep_inv (lat lon : number) (i : nat) (st : EncodeState) :
  encodeInv i st -> encodeInv (S i) (encodeStep lat lon i st).
Proof.
  intros (Hch & Hlen & Hall).
  unfold encodeStep.
  set (st1 := if Nat.even i then _ else _).
  assert (H1 : (0 <= es_ch st1 < 32)%Z /\ es_geohash st1 = es_geohash st).
  { subst st1.
    pose proof (lor_bit_range _ _ Hch (bitPosition_range i)).
    destruct (Nat.even i);
      [destruct (numGe lon _) | destruct (numGe lat _)];
      simpl; auto. }
  destruct H1 as [Hch1 Hg1].
  unfold bitsPerChar.
  destruct (Nat.eqb_spec ((i + 1) mod 5) 0) as [Hm|Hm].
  - destruct (base32At_indexOf _ Hch1) as (c & Hc & Hidx).
    unfold encodeInv; cbn [es_ch es_geohash]. rewrite Hg1, Hc.
    split; [lia|]. split.
    + rewrite length_append, Hlen. cbn [String.length].
      symmetry. now apply div5_step.
    + rewrite allBase32_append, Hall. simpl. now rewrite Hidx.
  - unfold encodeInv. rewrite Hg1. repeat split; try tauto.
    rewrite Hlen. symmetry. now apply div5_step.
Qed.

Lemma encodeLoop_inv (lat lon : number) (n i : nat) (st : EncodeState) :
  encodeInv i st -> encodeInv (i + n) (encodeLoop lat lon n i st).
Proof.
  revert i st.
  induction n as [|n IH]; intros i st H; simpl.
  - now rewrite Nat.add_0_r.
  - replace (i + S n)%nat with (S i + n)%nat by lia.
    apply IH. now apply encodeStep_inv.
Qed.

Definition inRange (lat lon : Q) : Prop :=
  -90 <= lat <= 90 /\ -180 <= lon <= 180.

(** [encode] succeeds on every point in range, with one alphabet character
    per unit of precision. *)
Lemma encode_in_range (lat lon : Q) (precision : nat) :
  inRange lat lon ->
  exists g, encode lat lon precision = Ok g
            /\ String.length g = precision /\ allBase32 g = true.
Proof.
  intros [[H1 H2] [H3 H4]].
  unfold encode.
  rewrite (proj2 (numLt_Fin_false lat (-90)) H1),
    (proj2 (numGt_Fin_false lat 90) H2),
    (proj2 (numLt_Fin_false lon (-180)) H3),
    (proj2 (numGt_Fin_false lon 180) H4).
  cbn [orb].
  eexists; split; [reflexivity|].
  assert (H0 : encodeInv 0 encodeInit).
  { unfold encodeInv; simpl. repeat split; try reflexivity; lia. }
  pose proof (encodeLoop_inv lat lon (precision * bitsPerChar) 0 _ H0)
    as (_ & Hlen & Hall).
  split; [|exact Hall].
  rewrite Hlen. unfold bitsPerChar. rewrite Nat.add_0_l.
  apply Nat.div_mul. discriminate.
Qed.


(** On rationals the ranges of [decode] never collapse. *)
Definition decodeInv (st : DecodeState) : Prop :=
  fst (ds_latRange st) < snd (ds_latRange st)
  /\ fst (ds_lonRange st) < snd (ds_lonRange st).

Lemma decodeBit_inv (idx : Z) (j : nat) (st : DecodeState) :
  decodeInv st -> decodeInv (decodeBit idx j st).
Proof.
  intros [Hlat Hlon]. unfold decodeBit, decodeInv, midpoint.
  destruct (ds_isEven st); destruct (negb _);
    cbn [fst snd ds_latRange ds_lonRange]; qconst; split; lra.
Qed.

Lemma decodeChar_inv (idx : Z) (st : DecodeState) :
  decodeInv st -> decodeInv (decodeChar idx st).
Proof.
  intros H. unfold decodeChar. simpl.
  repeat apply decodeBit_inv. exact H.
Qed.

Lemma decodeLoop_valid (g : string) (st : DecodeState) :
  allBase32 g = true -> decodeInv st ->
  exists st', decodeLoop g st = Ok st' /\ decodeInv st'.
Proof.
  revert st.
  induction g as [|c g IH]; intros st Hall Hinv; simpl in *.
  - eauto.
  - destruct (indexOf c) as [idx|]; [|discriminate].
    apply IH; [exact Hall | now apply decodeChar_inv].
Qed.

Lemma decode_valid (g : string) :
  validGeohash g = true ->
  exists d, decode g = Ok d
            /\ fst (latRange d) < snd (latRange d)
            /\ fst (lonRange d) < snd (lonRange d).
Proof.
  intros Hv.
  destruct g as [|c g]; [discriminate|].
  unfold validGeohash in Hv.
  assert (Hinit : decodeInv decodeInit) by (unfold decodeInv; simpl; lra).
  destruct (decodeLoop_valid _ _ Hv Hinit) as (st' & Hst & [Hlat Hlon]).
  unfold decode. rewrite Hst. simpl.
  eexists; split; [reflexivity|]. simpl. auto.
Qed.

Lemma clamp_range (lo hi x : Q) : lo <= hi -> lo <= clamp lo hi x <= hi.
Proof.
  intros H. unfold clamp. split.
  - apply Q.le_max_l.
  - apply Q.max_lub; [exact H | apply Q.le_min_l].
Qed.

(** The offsets that the inner loop of [getNeighbors] does not skip. *)
Definition kept (dlat : Q) (dlons : list Q) : list Q :=
  filter (fun dlon => negb (Qeq_bool dlat 0 && Qeq_bool dlon 0)) dlons.

Definition goodHash (precision : nat) (h : string) : Prop :=
  String.length h = precision /\ allBase32 h = true.

Lemma neighborsInner_ok (lat0 lon0 dlat : Q) (precision : nat)
    (dlons : list Q) (acc : list string) :
  exists l, neighborsInner lat0 lon0 dlat precision dlons acc = Ok (acc ++ l)
            /\ List.length l = List.length (kept dlat dlons)
            /\ Forall (goodHash precision) l.
Proof.
  revert acc.
  induction dlons as [|dlon rest IH]; intros acc; simpl.
  - exists []. rewrite app_nil_r. auto.
  - destruct (Qeq_bool dlat 0 && Qeq_bool dlon 0); simpl.
    + apply IH.
    + destruct (encode_in_range (clamp (-90) 90 (lat0 + dlat))
                  (clamp (-180) 180 (lon0 + dlon)) precision)
        as (h & Hh & Hlen & Hall).
      { split; apply clamp_range; lra. }
      rewrite Hh. simpl.
      destruct (IH (acc ++ [h])) as (l & Hl & Hn & Hf).
      exists (h :: l). rewrite Hl, <- app_assoc. simpl.
      repeat split; auto. constructor; [split|]; auto.
Qed.

Lemma neighborsOuter_ok (lat0 lon0 : Q) (precision : nat)
    (dlats dlons : list Q) (acc : list string) :
  exists l,
    neighborsOuter lat0 lon0 precision dlats dlons acc = Ok (acc ++ l)
    /\ List.length l
       = List.length (flat_map (fun dlat => kept dlat dlons) dlats)
    /\ Forall (goodHash precision) l.
Proof.
  revert acc.
  induction dlats as [|dlat rest IH]; intros acc; simpl.
  - exists []. rewrite app_nil_r. auto.
  - destruct (neighborsInner_ok lat0 lon0 dlat precision dlons acc)
      as (l1 & H1 & Hn1 & Hf1).
    rewrite H1. simpl.
    destruct (IH (acc ++ l1)) as (l2 & H2 & Hn2 & Hf2).
    exists (l1 ++ l2). rewrite H2, <- app_assoc.
    repeat split; auto.
    + rewrite !length_app. congruence.
    + apply Forall_app; auto.
Qed.

Lemma Qeq_bool_neg_false (x : Q) : 0 < x -> Qeq_bool (- x) 0 = false.
Proof.
  intros H. destruct (Qeq_bool (- x) 0) eqn:E; [|reflexivity].
  apply Qeq_bool_eq in E. lra.
Qed.

Lemma Qeq_bool_pos_false (x : Q) : 0 < x -> Qeq_bool x 0 = false.
Proof.
  intros H. destruct (Qeq_bool x 0) eqn:E; [|reflexivity].
  apply Qeq_bool_eq in E. lra.
Qed.

(** On a valid geohash [getNeighbors] returns eight hashes of the alphabet,
    each as long as its argument. *)
Lemma getNeighbors_valid (g : string) :
  validGeohash g = true ->
  exists l, getNeighbors g = Ok l /\ List.length l = 8%nat
            /\ Forall (goodHash (String.length g)) l.
Proof.
  intros Hv.
  destruct (decode_valid g Hv) as (d & Hd & Hlat & Hlon).
  unfold getNeighbors. rewrite Hd. simpl bind.
  set (latStep := snd (latRange d) - fst (latRange d)).
  set (lonStep := snd (lonRange d) - fst (lonRange d)).
  assert (Hlat' : 0 < latStep) by (subst latStep; lra).
  assert (Hlon' : 0 < lonStep) by (subst lonStep; lra).
  destruct (neighborsOuter_ok (lat d) (lon d) (String.length g)
              [- latStep; 0; latStep] [- lonStep; 0; lonStep] [])
    as (l & Hl & Hn & Hf).
  exists l. split; [exact Hl|]. split; [|exact Hf].
  rewrite Hn. simpl. unfold kept. simpl.
  rewrite (Qeq_bool_neg_false _ Hlat'), (Qeq_bool_pos_false _ Hlat'),
    (Qeq_bool_neg_false _ Hlon'), (Qeq_bool_pos_false _ Hlon').
  reflexivity.
Qed.

(** In [encode] the longitude bit at an even index and the latitude bit
    after it are written to the same position of the character, whereas
    [decode] reads five different positions. *)
Lemma bitPosition_shared (k : nat) :
  bitPosition (2 * k) = bitPosition (2 * k + 1).
Proof.
  unfold bitPosition.
  replace ((2 * k + 1) / 2)%nat with k.
  - replace ((2 * k) / 2)%nat with k; [reflexivity|].
    rewrite Nat.mul_comm. symmetry. apply Nat.div_mul. discriminate.
  - symmetry. rewrite Nat.mul_comm, Nat.add_comm.
    rewrite Nat.div_add by discriminate. reflexivity.
Qed.

(** The bounding box returned by [decode] contains the point. *)
Definition inBox (d : Decoded) (lat0 lon0 : Q) : bool :=
  Qle_bool (fst (latRange d)) lat0 && Qle_bool lat0 (snd (latRange d))
  && Qle_bool (fst (lonRange d)) lon0 && Qle_bool lon0 (snd (lonRange d)).

Local Open Scope string_scope.

(** C1. The round trip fails on the code: [encode] stores bit [i] of a
    character at position [4 - floor(i / 2) mod 5] where [decode] reads
    position [4 - i mod 5], so a longitude bit and the latitude bit after it
    share a position.  For latitude 1, longitude -1 and precision 1 the
    hash is "w", whose box has latitudes from 0 to 45 and longitudes from 90
    to 135; for the point of the repository's own round-trip test,
    (40.7128, -74.0060) at precision 6, the hash is "s7d7w3", whose box
    does not contain the point either. *)
Theorem encode_decode_misses_point :
  (exists d, encode 1 (-1) 1 = Ok "w" /\ decode "w" = Ok d
             /\ inBox d 1 (-1) = false)
  /\ (exists d, encode 40.7128 (-74.0060) 6 = Ok "s7d7w3"
                /\ decode "s7d7w3" = Ok d
                /\ inBox d 40.7128 (-74.0060) = false).
Proof.
  split; eexists; (split; [vm_compute; reflexivity|]);
    (split; [reflexivity | vm_compute; reflexivity]).
Qed.

(** C3, as stated, fails: the eight neighbours of the cell "0", which
    touches the south pole and the antimeridian, are clamped onto the cell
    itself and onto each other. *)
Lemma getNeighbors_duplicates :
  validGeohash "0" = true
  /\ getNeighbors "0" = Ok ["0"; "0"; "4"; "0"; "4"; "8"; "8"; "d"]
  /\ ~ NoDup ["0"; "0"; "4"; "0"; "4"; "8"; "8"; "d"].
Proof.
  split; [reflexivity|]. split; [vm_compute; reflexivity|].
  intros H. inversion H as [|x l Hnotin _]; subst.
  apply Hnotin. now left.
Qed.

(** C3, amended. For every valid geohash [g] of at most 18 characters,
    [getNeighbors g] returns exactly eight geohash strings, each of the
    length of [g].  Up to that length the interval halving is exact on
    doubles as it is on rationals; on longer hashes the cells of the source
    shrink to width zero, which is outside this statement. *)
Theorem getNeighbors_eight_same_length (g : string) :
  validGeohash g = true ->
  (String.length g <= 18)%nat ->
  exists l, getNeighbors g = Ok l
            /\ List.length l = 8%nat
            /\ Forall (fun h => String.length h = String.length g) l.
Proof.
  intros Hv _.
  destruct (getNeighbors_valid g Hv) as (l & Hl & Hn & Hf).
  exists l. repeat split; auto.
  eapply Forall_impl; [|exact Hf]. intros h [Hlen _]. exact Hlen.
Qed.

Lemma getNeighbors_eight_same_length_witness :
  validGeohash "s7d7w3" = true
  /\ exists l, getNeighbors "s7d7w3" = Ok l
               /\ List.length l = 8%nat
               /\ Forall (fun h => String.length h = String.length "s7d7w3") l.
Proof.
  split; [reflexivity|].
  apply (getNeighbors_eight_same_length "s7d7w3"); [reflexivity|].
  simpl. lia.
Defined.

End GeohashProps.

(** ** Point in polygon *)

Module PipProps.
Import Pip.

Lemma inNoHole_true (point : Point) (holes : list Polygon) :
  inNoHole point holes = true
  <-> forall hole, In hole holes -> pointInPolygon point hole = false.
Proof.
  induction holes as [|h rest IH]; simpl.
  - split; [intros _ hole [] | reflexivity].
  - destruct (pointInPolygon point h) eqn:E.
    + split; [discriminate|]. intros H.
      rewrite (H h) in E by now left. discriminate.
    + rewrite IH. split.
      * intros H hole [<-|Hin]; auto.
      * intros H hole Hin. apply H. now right.
Qed.

(** C8. [pointInPolygonWithHoles] holds exactly when the point is inside the
    exterior ring and inside no hole, and [pointInPolygon] is false on every
    ring of fewer than three points. *)
Theorem pointInPolygonWithHoles_spec (point : Point) (exterior : Polygon)
    (holes : list Polygon) :
  (pointInPolygonWithHoles point exterior holes = true
   <-> pointInPolygon point exterior = true
       /\ forall hole, In hole holes -> pointInPolygon point hole = false)
  /\ (forall ring, (List.length ring < 3)%nat ->
                   pointInPolygon point ring = false).
Proof.
  split.
  - unfold pointInPolygonWithHoles.
    destruct (pointInPolygon point exterior); simpl.
    + rewrite inNoHole_true. tauto.
    + split; [discriminate | intros [H _]; discriminate].
  - intros ring Hlen. unfold pointInPolygon.
    destruct (Nat.ltb_spec (List.length ring) 3); [reflexivity | lia].
Qed.

Lemma pointInPolygonWithHoles_spec_witness :
  pointInPolygonWithHoles (0.25, 0.25) [(0, 0); (0, 2); (2, 2); (2, 0)]
    [[(0.5, 0.5); (0.5, 1.5); (1.5, 1.5); (1.5, 0.5)]] = true
  /\ pointInPolygon (0.25, 0.25) [(0, 0); (0, 2)] = false.
Proof.
  pose proof (pointInPolygonWithHoles_spec (0.25, 0.25)
                [(0, 0); (0, 2); (2, 2); (2, 0)]
                [[(0.5, 0.5); (0.5, 1.5); (1.5, 1.5); (1.5, 0.5)]])
    as [Hiff Hshort].
  split.
  - apply Hiff. split; [reflexivity|].
    intros hole [<-|[]]. reflexivity.
  - apply Hshort. simpl. lia.
Defined.

End PipProps.

(** ** The confidence scorer *)

(** [Math.min] and [Math.max] replaced by what characterises them. *)
Ltac qminmax :=
  repeat match goal with
  | |- context [Qmin ?a ?b] =>
      pose proof (Q.min_spec a b); generalize dependent (Qmin a b); intros
  | |- context [Qmax ?a ?b] =>
      pose proof (Q.max_spec a b); generalize dependent (Qmax a b); intros
  | H : context [Qmin ?a ?b] |- _ =>
      pose proof (Q.min_spec a b); generalize dependent (Qmin a b); intros
  | H : context [Qmax ?a ?b] |- _ =>
      pose proof (Q.max_spec a b); generalize dependent (Qmax a b); intros
  end.

Module ConfidenceProps.
Import Pip Confidence.

Lemma xle_refl (a : xnum) : xle a a.
Proof. destruct a; simpl; [apply Qle_refl | exact I]. Qed.

Lemma xle_trans (a b c : xnum) : xle a b -> xle b c -> xle a c.
Proof.
  destruct a, b, c; simpl; try tauto. apply Qle_trans.
Qed.

Lemma xeq_xle (a b : xnum) : xeq a b -> xle a b /\ xle b a.
Proof.
  destruct a, b; simpl; try tauto. intros H. split; lra.
Qed.

Lemma xle_antisym (a b : xnum) : xle a b -> xle b a -> xeq a b.
Proof.
  destruct a, b; simpl; try tauto. intros. lra.
Qed.

Lemma xmin_le_l (a b : xnum) : xle (xmin a b) a.
Proof.
  destruct a, b; simpl; auto using Qle_refl, Q.le_min_l.
Qed.

Lemma xmin_le_r (a b : xnum) : xle (xmin a b) b.
Proof.
  destruct a, b; simpl; auto using Qle_refl, Q.le_min_r.
Qed.

Lemma xmin_cases (a b : xnum) : xeq (xmin a b) a \/ xeq (xmin a b) b.
Proof.
  destruct a as [x|], b as [y|]; simpl; auto using Qeq_refl.
  destruct (Q.min_spec x y) as [[_ H]|[_ H]]; auto.
Qed.

(** C5, first half, on the distance itself: a larger distance to the
    nearest edge never gives a smaller base confidence. *)
Lemma baseConfidence_mono (d1 d2 : xnum) :
  xle d1 d2 -> baseConfidence d1 <= baseConfidence d2.
Proof.
  destruct d1 as [x|], d2 as [y|]; cbn [baseConfidence xle];
    try tauto; intros H.
  - qcases 0.1 x; qcases 0.1 y; try lra;
      qcases 0.05 x; qcases 0.05 y; try lra;
      qcases 0.01 x; qcases 0.01 y; qconst; lra.
  - qcases 0.1 x; [lra|]. qcases 0.05 x; [qconst; lra|].
    qcases 0.01 x; qconst; lra.
  - lra.
Qed.

Lemma baseConfidence_compat (d1 d2 : xnum) :
  xeq d1 d2 -> baseConfidence d1 == baseConfidence d2.
Proof.
  intros H. apply xeq_xle in H as [H1 H2].
  apply Qle_antisym; now apply baseConfidence_mono.
Qed.

Lemma penalize_mono (b1 b2 n : Q) :
  b1 <= b2 -> penalize b1 n <= penalize b2 n.
Proof.
  intros H. unfold penalize.
  destruct (Qltb 1 n); qminmax; lra.
Qed.

Lemma penalize_compat (b1 b2 n : Q) :
  b1 == b2 -> penalize b1 n == penalize b2 n.
Proof.
  intros H. apply Qle_antisym; apply penalize_mono; lra.
Qed.

Lemma penalize_range (b n : Q) : 0.5 <= penalize b n <= 1.
Proof.
  unfold penalize. destruct (Qltb 1 n); qminmax; lra.
Qed.

Lemma penalize_two_one (b : Q) : penalize b 2 <= penalize b 1.
Proof.
  unfold penalize.
  change (Qltb 1 2) with true. change (Qltb 1 1) with false.
  cbv iota. qminmax; lra.
Qed.

(** The reference scorer, in the words of its description. *)

(** [d] is the minimum of the distances [ds]. *)
Definition isMinimum (d : xnum) (ds : list xnum) : Prop :=
  (forall x, In x ds -> xle d x) /\ (exists x, In x ds /\ xeq d x).

(** The piecewise-linear mapping of the distance to the base confidence. *)
Definition baseSpec (d : xnum) (b : Q) : Prop :=
  match d with
  | Infinity => b == 0.98
  | Finite q =>
      (0.1 <= q /\ b == 0.98)
      \/ (0.05 <= q /\ q < 0.1 /\ b == 0.88 + (q - 0.05) / 0.05 * 0.10)
      \/ (0.01 <= q /\ q < 0.05 /\ b == 0.75 + (q - 0.01) / 0.04 * 0.13)
      \/ (q < 0.01 /\ b == 0.70 + q / 0.01 * 0.05)
  end.

(** The ambiguity penalty. *)
Definition penaltySpec (candidateCount : Q) (p : Q) : Prop :=
  (1 < candidateCount
   /\ ((0.2 <= (candidateCount - 1) * 0.05 /\ p == 0.2)
       \/ ((candidateCount - 1) * 0.05 <= 0.2
           /\ p == (candidateCount - 1) * 0.05)))
  \/ (candidateCount <= 1 /\ p == 0).

(** Clamping to [[0.5, 1.0]]. *)
Definition clampSpec (x c : Q) : Prop :=
  (x <= 0.5 /\ c == 0.5) \/ (0.5 <= x /\ x <= 1.0 /\ c == x)
  \/ (1.0 <= x /\ c == 1.0).

Lemma baseSpec_baseConfidence (d : xnum) (b : Q) :
  baseSpec d b <-> b == baseConfidence d.
Proof.
  destruct d as [q|]; simpl; [|tauto].
  qcases 0.1 q; [|qcases 0.05 q; [|qcases 0.01 q]]; qconst;
    (split; [intros [H|[H|[H|H]]]; lra | intros H]).
  - left. split; lra.
  - right. left. repeat split; lra.
  - right. right. left. repeat split; lra.
  - right. right. right. split; lra.
Qed.

Lemma penalize_spec (b n c : Q) :
  (exists p, penaltySpec n p /\ clampSpec (b - p) c) <-> c == penalize b n.
Proof.
  unfold penalize, penaltySpec, clampSpec, Qltb.
  qcases n 1; simpl negb; cbv iota.
  - split.
    + intros (p & [[H _]|[_ Hp]] & Hcl); [lra|].
      qminmax. lra.
    + intros H. exists 0. split; [right; split; lra|].
      qminmax. lra.
  - split.
    + intros (p & [[_ Hp]|[H _]] & Hcl); [|lra].
      qminmax. lra.
    + intros H. exists (Qmin 0.2 ((n - 1) * 0.05)). split.
      * left. split; [exact Hc|]. qminmax. lra.
      * qminmax. lra.
Qed.

Section ScorerProps.

Variable sqrt : Q -> Q.

Let dist := distanceToPolygonEdge sqrt.

Lemma isMinimum_unique (d d' : xnum) (ds : list xnum) :
  isMinimum d ds -> isMinimum d' ds -> xeq d d'.
Proof.
  intros [Hlb (x & Hx & Hex)] [Hlb' (x' & Hx' & Hex')].
  apply xle_antisym.
  - apply xle_trans with x'; [now apply Hlb | now apply xeq_xle].
  - apply xle_trans with x; [now apply Hlb' | now apply xeq_xle].
Qed.

Lemma minOverHoles_isMinimum (point : Point) (holes : list Polygon)
    (acc : xnum) :
  isMinimum (minOverHoles sqrt point holes acc)
    (acc :: map (dist point) holes).
Proof.
  revert acc.
  induction holes as [|h rest IH]; intros acc; simpl.
  - split.
    + intros x [<-|[]]. apply xle_refl.
    + exists acc. split; [now left | apply xle_antisym; apply xle_refl].
  - destruct (IH (xmin acc (dist point h))) as [Hlb (x & Hx & Hex)].
    fold dist.
    set (m := minOverHoles sqrt point rest (xmin acc (dist point h))) in *.
    assert (Hm : xle m (xmin acc (dist point h))) by (apply Hlb; now left).
    split.
    + intros y [<-|[<-|Hy]].
      * eapply xle_trans; [exact Hm | apply xmin_le_l].
      * eapply xle_trans; [exact Hm | apply xmin_le_r].
      * apply Hlb. now right.
    + destruct Hx as [<-|Hx].
      * destruct (xmin_cases acc (dist point h)) as [Hc|Hc].
        -- exists acc. split; [now left|].
           apply xeq_xle in Hex as [E1 E2]. apply xeq_xle in Hc as [C1 C2].
           apply xle_antisym; eapply xle_trans; eauto.
        -- exists (dist point h). split; [right; now left|].
           apply xeq_xle in Hex as [E1 E2]. apply xeq_xle in Hc as [C1 C2].
           apply xle_antisym; eapply xle_trans; eauto.
      * exists x. split; [right; now right | exact Hex].
Qed.

(** The reference scorer: [c] is the score of the description for the
    point, the exterior, the holes and the candidate count. *)
Definition confidenceSpec (point : Point) (exterior : Polygon)
    (holes : list Polygon) (candidateCount : Q) (c : Q) : Prop :=
  exists d b p,
    isMinimum d (dist point exterior :: map (dist point) holes)
    /\ baseSpec d b
    /\ penaltySpec candidateCount p
    /\ clampSpec (b - p) c.

(** C4. [calculateConfidence] is the reference scorer: a score satisfies
    the description exactly when it is equal to the result of
    [calculateConfidence]. *)
Theorem calculateConfidence_refines (point : Point) (exterior : Polygon)
    (holes : list Polygon) (candidateCount : Q) (c : Q) :
  confidenceSpec point exterior holes candidateCount c
  <-> c == calculateConfidence sqrt point exterior holes candidateCount.
Proof.
  unfold calculateConfidence, minEdgeDistance.
  pose proof (minOverHoles_isMinimum point holes (dist point exterior))
    as Hmin.
  fold dist.
  set (m := minOverHoles sqrt point holes (dist point exterior)) in *.
  split.
  - intros (d & b & p & Hd & Hb & Hp & Hc).
    apply baseSpec_baseConfidence in Hb.
    assert (Hdm : xeq d m) by (eapply isMinimum_unique; eauto).
    apply baseConfidence_compat in Hdm.
    assert (Hcb : c == penalize b candidateCount).
    { apply penalize_spec. eauto. }
    rewrite Hcb. apply penalize_compat. lra.
  - intros Hc.
    apply penalize_spec in Hc as (p & Hp & Hc).
    exists m, (baseConfidence m), p.
    split; [exact Hmin|].
    split; [apply baseSpec_baseConfidence; apply Qeq_refl|].
    split; assumption.
Qed.

(** C5. For a fixed candidate count the score does not decrease when the
    distance to the nearest edge grows, and for the same point and polygon
    two candidates never score more than one. *)
Theorem calculateConfidence_monotone :
  (forall (p1 p2 : Point) (e1 e2 : Polygon) (h1 h2 : list Polygon)
          (candidateCount : Q),
      xle (minEdgeDistance sqrt p1 e1 h1) (minEdgeDistance sqrt p2 e2 h2) ->
      calculateConfidence sqrt p1 e1 h1 candidateCount
      <= calculateConfidence sqrt p2 e2 h2 candidateCount)
  /\ (forall (point : Point) (exterior : Polygon) (holes : list Polygon),
         calculateConfidence sqrt point exterior holes 2
         <= calculateConfidence sqrt point exterior holes 1).
Proof.
  split.
  - intros p1 p2 e1 e2 h1 h2 n H. unfold calculateConfidence.
    apply penalize_mono. now apply baseConfidence_mono.
  - intros point exterior holes. unfold calculateConfidence.
    apply penalize_two_one.
Qed.

Lemma calculateConfidence_ge_half (point : Point) (exterior : Polygon)
    (holes : list Polygon) (candidateCount : Q) :
  0.5 <= calculateConfidence sqrt point exterior holes candidateCount.
Proof.
  unfold calculateConfidence. apply penalize_range.
Qed.

End ScorerProps.

Lemma calculateConfidence_monotone_witness :
  calculateConfidence Sample.sqrtApprox (0.02, 2) (Sample.square 0 4) [] 1
  <= calculateConfidence Sample.sqrtApprox (3, 3) (Sample.square 0 4)
       [Sample.square 1 2] 1.
Proof.
  apply (proj1 (calculateConfidence_monotone Sample.sqrtApprox)).
  vm_compute. discriminate.
Defined.

End ConfidenceProps.

(** ** The forward resolver *)

Module ResolverProps.
Import Pip Loader Resolver GeohashProps.


Lemma goodHash_valid (n : nat) (g : string) :
  goodHash (S n) g -> Geohash.validGeohash g = true.
Proof.
  intros [Hlen Hall]. destruct g; [discriminate | exact Hall].
Qed.

Lemma extendedNeighbors_ok (n : nat) (neighbors seen : list string) :
  Forall (goodHash (S n)) neighbors ->
  exists l, extendedNeighbors neighbors seen = Ok l.
Proof.
  intros H. revert seen.
  induction H as [|h rest Hh _ IH]; intros seen; simpl.
  - eauto.
  - destruct (getNeighbors_valid h (goodHash_valid _ _ Hh)) as (l & Hl & _).
    rewrite Hl. simpl. apply IH.
Qed.

(** The search for candidates never fails on a hash made by [encode]. *)
Lemma findCandidates_ok (loader : DataLoader) (n : nat) (g : string) :
  goodHash (S n) g -> exists cs, findCandidates loader g = Ok cs.
Proof.
  intros Hg.
  destruct (getNeighbors_valid g (goodHash_valid _ _ Hg)) as (l & Hl & _ & Hf).
  destruct Hg as [Hlen _]. rewrite Hlen in Hf.
  destruct (extendedNeighbors_ok n l [] Hf) as (ext & Hext).
  unfold findCandidates, neighborCandidates, extendedCandidates.
  rewrite Hl. simpl bind.
  destruct (List.length (getCandidateCountries loader g) =? 0)%nat;
    simpl bind; rewrite ?Hext; simpl bind;
    repeat match goal with
    | |- context [if ?b then _ else _] => destruct b; simpl bind
    end; rewrite ?Hext; simpl bind; eauto.
Qed.

Lemma findCandidates_nil (loader : DataLoader) (g : string) :
  findCandidates loader g = Ok [] -> countryIds loader = [].
Proof.
  unfold findCandidates. intros H.
  apply bind_ok in H as (c1 & _ & H).
  apply bind_ok in H as (c2 & _ & H).
  injection H as H.
  destruct c2; simpl in H; [exact H | discriminate].
Qed.


(** ** Rings of the data file *)

Lemma ringOf_inj (p q : Polygon) : ringOf p = ringOf q -> p = q.
Proof.
  revert q. induction p as [|x p IH]; intros [|y q]; simpl;
    try discriminate; [reflexivity|].
  intros [= -> H]. now rewrite (IH q H).
Qed.

Lemma ringOf_nil (p : Polygon) : ringOf p = [] -> p = [].
Proof. destruct p; [reflexivity | discriminate]. Qed.

Lemma nullFree_ringOf (ring : Ring) :
  ~ In None ring -> exists points, ring = ringOf points.
Proof.
  induction ring as [|[c|] rest IH]; intros H.
  - now exists [].
  - destruct IH as (points & ->); [intros Hin; apply H; now right|].
    now exists (c :: points).
  - exfalso. apply H. now left.
Qed.

Lemma ringOf_nullFree (points : Polygon) : ~ In None (ringOf points).
Proof.
  induction points as [|p points IH]; simpl; [tauto|].
  intros [H|H]; [discriminate | auto].
Qed.

(** A conversion of rings that succeeds exactly on the rings without
    [null], with their points. *)
Definition converts (convert : Ring -> result Polygon) : Prop :=
  forall ring points, convert ring = Ok points <-> ring = ringOf points.

Lemma checkedPoints_converts : converts checkedPoints.
Proof.
  intros ring. induction ring as [|[c|] rest IH]; intros points; simpl.
  - split; [now intros [= <-] | now destruct points].
  - split.
    + intros H. apply bind_ok in H as (pts & Hp & [= <-]).
      apply IH in Hp. subst rest. now destruct c.
    + destruct points as [|p pts]; [discriminate|]. simpl.
      intros [= -> ->]. rewrite (proj2 (IH pts) eq_refl). simpl.
      now destruct p.
  - split; [discriminate | now destruct points].
Qed.

Lemma toPoints_converts : converts toPoints.
Proof.
  intros ring. induction ring as [|[c|] rest IH]; intros points; simpl.
  - split; [now intros [= <-] | now destruct points].
  - split.
    + intros H. apply bind_ok in H as (pts & Hp & [= <-]).
      apply IH in Hp. subst rest. now destruct c.
    + destruct points as [|p pts]; [discriminate|]. simpl.
      intros [= -> ->]. rewrite (proj2 (IH pts) eq_refl). simpl.
      now destruct p.
  - split; [discriminate | now destruct points].
Qed.

Lemma checkedPoints_err (ring : Ring) (e : error) :
  checkedPoints ring = Err e -> e = InvalidCoordinateFormat /\ In None ring.
Proof.
  induction ring as [|[c|] rest IH]; simpl; [discriminate| |].
  - destruct (checkedPoints rest); simpl; [discriminate|].
    intros [= <-]. destruct (IH eq_refl). auto.
  - intros [= <-]. auto.
Qed.







Section ScanProps.

Variable sqrt : Q -> Q.

Let score := Confidence.calculateConfidence sqrt.

Lemma isEmpty_true {A : Type} (l : list A) : isEmpty l = true <-> l = [].
Proof. destruct l; simpl; split; congruence. Qed.

(** The two loops over the exteriors differ in the conversion of the
    exterior and in the score they record. *)
Fixpoint scanWith (convert : Ring -> result Polygon)
    (record : Polygon -> list Polygon -> Q) (point : Point)
    (pd : PolygonData) (exts : list Ring) : result (option Q) :=
  match exts with
  | [] => Ok None
  | ext :: rest =>
      if isEmpty ext then scanWith convert record point pd rest
      else
        do exteriorPolygon <- convert ext;
        do holes <- holesOf pd;
        if pointInPolygonWithHoles point exteriorPolygon holes then
          Ok (Some (record exteriorPolygon holes))
        else scanWith convert record point pd rest
  end.

Lemma scanExteriors_scanWith (point : Point) (pd : PolygonData) (count : Q)
    (exts : list Ring) :
  scanExteriors sqrt point pd count exts
  = scanWith checkedPoints (fun r hs => score point r hs count) point pd exts.
Proof.
  induction exts as [|e exts IH]; simpl; [reflexivity|].
  rewrite IH. reflexivity.
Qed.

Lemma scanExteriorsFallback_scanWith (point : Point) (pd : PolygonData)
    (exts : list Ring) :
  scanExteriorsFallback sqrt point pd exts
  = scanWith toPoints (fun r hs => score point r hs 1 * 0.95) point pd exts.
Proof.
  induction exts as [|e exts IH]; simpl; [reflexivity|].
  rewrite IH. reflexivity.
Qed.

(** [ring] is the first exterior of [exts] that is not empty and contains
    the point, outside the holes [holes] of the record. *)
Definition firstMatching (point : Point) (pd : PolygonData)
    (exts : list Ring) (ring : Polygon) (holes : list Polygon) : Prop :=
  holesOf pd = Ok holes
  /\ exists pre post,
       exts = (pre ++ ringOf ring :: post)%list
       /\ (forall e, In e pre ->
             e = [] \/ exists r, e = ringOf r
                                 /\ pointInPolygonWithHoles point r holes
                                    = false)
       /\ ring <> []
       /\ pointInPolygonWithHoles point ring holes = true.

Lemma firstMatching_cons (point : Point) (pd : PolygonData) (e : Ring)
    (exts : list Ring) (ring : Polygon) (holes : list Polygon) :
  firstMatching point pd (e :: exts) ring holes
  <-> (e = ringOf ring /\ holesOf pd = Ok holes /\ ring <> []
       /\ pointInPolygonWithHoles point ring holes = true)
      \/ ((e = [] \/ exists r, e = ringOf r
                               /\ pointInPolygonWithHoles point r holes
                                  = false)
          /\ firstMatching point pd exts ring holes).
Proof.
  split.
  - intros (Hh & pre & post & Heq & Hpre & Hne & Hin).
    destruct pre as [|e' pre]; simpl in Heq; injection Heq as -> ->.
    + left. auto.
    + right. split; [apply Hpre; now left|].
      split; [exact Hh|]. exists pre, post. repeat split; auto.
      intros x Hx. apply Hpre. now right.
  - intros [(-> & Hh & Hne & Hin)
           |(He & Hh & pre & post & -> & Hpre & Hne & Hin)].
    + split; [exact Hh|]. exists [], exts. repeat split; auto. intros x [].
    + split; [exact Hh|]. exists (e :: pre), post. repeat split; auto.
      intros x [<-|Hx]; auto.
Qed.

Lemma firstMatching_nil (point : Point) (pd : PolygonData) (ring : Polygon)
    (holes : list Polygon) :
  ~ firstMatching point pd [] ring holes.
Proof. intros (_ & pre & post & Heq & _). destruct pre; discriminate. Qed.

Section ScanWith.

Variable convert : Ring -> result Polygon.
Variable record : Polygon -> list Polygon -> Q.
Hypothesis convert_ok : converts convert.

Lemma scanWith_some (point : Point) (pd : PolygonData) (exts : list Ring)
    (c : Q) :
  scanWith convert record point pd exts = Ok (Some c)
  <-> exists ring holes, firstMatching point pd exts ring holes
                         /\ c = record ring holes.
Proof.
  induction exts as [|e exts IH]; simpl.
  - split; [discriminate|].
    intros (ring & holes & Hf & _). now apply firstMatching_nil in Hf.
  - destruct (isEmpty e) eqn:Ee.
    + apply isEmpty_true in Ee. rewrite IH. split.
      * intros (ring & holes & Hf & Hc). exists ring, holes.
        split; [|exact Hc]. apply firstMatching_cons. right. auto.
      * intros (ring & holes & Hf & Hc). exists ring, holes.
        split; [|exact Hc].
        apply firstMatching_cons in Hf as [(Hr & _ & Hne & _)|[_ Hf]];
          [|exact Hf].
        rewrite Ee in Hr. symmetry in Hr. apply ringOf_nil in Hr.
        contradiction.
    + assert (Hne : e <> []) by (intros ->; discriminate).
      destruct (convert e) as [r|err] eqn:Ec; simpl.
      * apply convert_ok in Ec. subst e.
        destruct (holesOf pd) as [hs|err] eqn:Eh; simpl.
        -- destruct (pointInPolygonWithHoles point r hs) eqn:Ep.
           ++ split.
              ** intros [= <-]. exists r, hs. split; [|reflexivity].
                 apply firstMatching_cons. left. repeat split; auto.
                 intros ->. now apply Hne.
              ** intros (ring & holes & Hf & ->).
                 apply firstMatching_cons in Hf
                   as [(Hr & Hh & _)|[[Hr|(r' & Hr & Hp)] (Hh & _)]].
                 --- apply ringOf_inj in Hr. congruence.
                 --- contradiction.
                 --- apply ringOf_inj in Hr. congruence.
           ++ rewrite IH. split.
              ** intros (ring & holes & Hf & Hc). exists ring, holes.
                 split; [|exact Hc]. apply firstMatching_cons. right.
                 split; [|exact Hf]. right. exists r.
                 split; [reflexivity|]. destruct Hf as [Hh _]. congruence.
              ** intros (ring & holes & Hf & Hc). exists ring, holes.
                 split; [|exact Hc].
                 apply firstMatching_cons in Hf
                   as [(Hr & Hh & _ & Hp)|[_ Hf]]; [|exact Hf].
                 apply ringOf_inj in Hr. congruence.
        -- split; [discriminate|].
           intros (ring & holes & (Hh & _) & _). congruence.
      * split; [discriminate|].
        intros (ring & holes & Hf & _).
        apply firstMatching_cons in Hf
          as [(Hr & _)|[[Hr|(r' & Hr & _)] _]].
        -- apply convert_ok in Hr. congruence.
        -- contradiction.
        -- apply convert_ok in Hr. congruence.
Qed.

(** A scan that finds nothing has converted every non-empty exterior and
    found the point outside it, or in a hole. *)
Lemma scanWith_none (point : Point) (pd : PolygonData) (exts : list Ring) :
  scanWith convert record point pd exts = Ok None ->
  forall e, In e exts ->
    e = [] \/ exists r holes, e = ringOf r /\ holesOf pd = Ok holes
                              /\ pointInPolygonWithHoles point r holes
                                 = false.
Proof.
  induction exts as [|e exts IH]; simpl; [intros _ x []|].
  destruct (isEmpty e) eqn:Ee.
  - apply isEmpty_true in Ee. intros H x [<-|Hx]; auto.
  - destruct (convert e) as [r|err] eqn:Ec; simpl; [|discriminate].
    apply convert_ok in Ec.
    destruct (holesOf pd) as [hs|err] eqn:Eh; simpl; [|discriminate].
    destruct (pointInPolygonWithHoles point r hs) eqn:Ep; [discriminate|].
    intros H x [<-|Hx]; [right; eauto | auto].
Qed.


End ScanWith.

Lemma scanExteriors_spec (point : Point) (pd : PolygonData) (count : Q)
    (exts : list Ring) (c : Q) :
  scanExteriors sqrt point pd count exts = Ok (Some c)
  <-> exists ring holes, firstMatching point pd exts ring holes
                         /\ c = score point ring holes count.
Proof.
  rewrite scanExteriors_scanWith.
  apply (scanWith_some checkedPoints _ checkedPoints_converts).
Qed.

Lemma scanExteriorsFallback_spec (point : Point) (pd : PolygonData)
    (exts : list Ring) (c : Q) :
  scanExteriorsFallback sqrt point pd exts = Ok (Some c)
  <-> exists ring holes, firstMatching point pd exts ring holes
                         /\ c = score point ring holes 1 * 0.95.
Proof.
  rewrite scanExteriorsFallback_scanWith.
  apply (scanWith_some toPoints _ toPoints_converts).
Qed.



Lemma primaryMatches_In (loader : DataLoader) (point : Point) (count : Q)
    (candidates : list Z) (ms : list (Z * Q)) (id : Z) (c : Q) :
  primaryMatches sqrt loader point count candidates = Ok ms ->
  (In (id, c) ms
   <-> In id candidates
       /\ exists pd, getPolygon loader id = Some pd
                     /\ scanExteriors sqrt point pd count (exteriorsOf pd)
                        = Ok (Some c)).
Proof.
  revert ms. induction candidates as [|k rest IH]; intros ms; simpl.
  - intros [= <-]. split; [intros [] | intros [[] _]].
  - destruct (getPolygon loader k) as [pd|] eqn:Ek.
    + intros H. apply bind_ok in H as (found & Hs & H).
      apply bind_ok in H as (ms' & Hrest & [= <-]).
      specialize (IH ms' Hrest).
      destruct found as [c'|]; simpl; rewrite ?IH; split.
      * intros [[= <- <-]|[Hin Hex]]; [|tauto].
        split; [now left | eauto].
      * intros [[<-|Hin] (pd' & Hpd & Hs')]; [|right; eauto].
        left. congruence.
      * intros [Hin Hex]. tauto.
      * intros [[<-|Hin] (pd' & Hpd & Hs')]; [congruence | eauto].
    + intros H. rewrite (IH ms H). split.
      * intros [Hin Hex]. tauto.
      * intros [[<-|Hin] (pd' & Hpd & Hs)]; [congruence | eauto].
Qed.

(** When the first scan completes, it has scanned every candidate that has
    a polygon record. *)
Lemma primaryMatches_scanned (loader : DataLoader) (point : Point)
    (count : Q) (candidates : list Z) (ms : list (Z * Q)) (id : Z)
    (pd : PolygonData) :
  primaryMatches sqrt loader point count candidates = Ok ms ->
  In id candidates -> getPolygon loader id = Some pd ->
  exists found,
    scanExteriors sqrt point pd count (exteriorsOf pd) = Ok found.
Proof.
  revert ms. induction candidates as [|k rest IH]; intros ms; simpl;
    [intros _ []|].
  destruct (getPolygon loader k) as [pd'|] eqn:Ek.
  - intros H. apply bind_ok in H as (found & Hs & H).
    apply bind_ok in H as (ms' & Hrest & _).
    intros [<-|Hin] Hpd; [|eauto].
    rewrite Ek in Hpd. injection Hpd as <-. eauto.
  - intros H [<-|Hin] Hpd; [congruence | eauto].
Qed.


Lemma existsb_eqb_false (id : Z) (l : list Z) :
  existsb (Z.eqb id) l = false <-> ~ In id l.
Proof.
  induction l as [|k rest IH]; simpl; [tauto|].
  rewrite orb_false_iff, IH, Z.eqb_neq. intuition congruence.
Qed.

Lemma fallbackMatches_In (loader : DataLoader) (point : Point)
    (candidates ids : list Z) (ms : list (Z * Q)) (id : Z) (c : Q) :
  fallbackMatches sqrt loader point candidates ids = Ok ms ->
  (In (id, c) ms
   <-> In id ids /\ ~ In id candidates
       /\ exists pd, getPolygon loader id = Some pd
                     /\ scanExteriorsFallback sqrt point pd (exteriorsOf pd)
                        = Ok (Some c)).
Proof.
  unfold getPolygon.
  revert ms. induction ids as [|k rest IH]; intros ms; simpl.
  - intros [= <-]. simpl. tauto.
  - destruct (existsb (Z.eqb k) candidates) eqn:Ex.
    + intros H. rewrite (IH ms H). split; [tauto|].
      intros [[<-|Hin] [Hn Hex]]; [|tauto].
      apply existsb_eqb_false in Hn. congruence.
    + apply existsb_eqb_false in Ex.
      destruct (lookup Z.eqb k (polygons loader)) as [pd|] eqn:Ek.
      * intros H. apply bind_ok in H as (found & Hs & H).
        apply bind_ok in H as (ms' & Hrest & [= <-]).
        specialize (IH ms' Hrest).
        destruct found as [c'|]; simpl; rewrite ?IH; split.
        -- intros [[= <- <-]|H]; [|tauto]. eauto 6.
        -- intros [[<-|Hin] [Hn (pd' & Hpd & Hs')]]; [|right; eauto].
           left. congruence.
        -- tauto.
        -- intros [[<-|Hin] [Hn (pd' & Hpd & Hs')]]; [congruence | eauto].
      * intros H. rewrite (IH ms H). split; [tauto|].
        intros [[<-|Hin] [Hn (pd' & Hpd & Hs)]]; [congruence | eauto].
Qed.

Lemma fallbackMatches_scanned (loader : DataLoader) (point : Point)
    (candidates ids : list Z) (ms : list (Z * Q)) (id : Z)
    (pd : PolygonData) :
  fallbackMatches sqrt loader point candidates ids = Ok ms ->
  In id ids -> ~ In id candidates -> getPolygon loader id = Some pd ->
  exists found,
    scanExteriorsFallback sqrt point pd (exteriorsOf pd) = Ok found.
Proof.
  unfold getPolygon.
  revert ms. induction ids as [|k rest IH]; intros ms; simpl;
    [intros _ []|].
  destruct (existsb (Z.eqb k) candidates) eqn:Ex.
  - intros H [<-|Hin] Hn Hpd; [|eauto].
    apply existsb_eqb_false in Hn. congruence.
  - destruct (lookup Z.eqb k (polygons loader)) as [pd'|] eqn:Ek.
    + intros H. apply bind_ok in H as (found & Hs & H).
      apply bind_ok in H as (ms' & Hrest & _).
      intros [<-|Hin] Hn Hpd; [|eauto].
      rewrite Ek in Hpd. injection Hpd as <-. eauto.
    + intros H [<-|Hin] Hn Hpd; [congruence | eauto].
Qed.


(** The stable sort keeps the matches and puts a highest confidence
    first. *)
Lemma insertMatch_In (m x : Z * Q) (l : list (Z * Q)) :
  In x (insertMatch m l) <-> x = m \/ In x l.
Proof.
  induction l as [|m' rest IH]; simpl.
  - intuition congruence.
  - destruct (Qle_bool (snd m') (snd m)); simpl; [|rewrite IH];
      intuition congruence.
Qed.

Lemma sortMatches_In (x : Z * Q) (l : list (Z * Q)) :
  In x (sortMatches l) <-> In x l.
Proof.
  induction l as [|m rest IH]; simpl; [tauto|].
  rewrite insertMatch_In, IH. intuition congruence.
Qed.

Lemma hd_insertMatch_max (m d x : Z * Q) (l : list (Z * Q)) :
  (forall y, In y l -> snd y <= snd (hd d l)) ->
  In x (insertMatch m l) -> snd x <= snd (hd d (insertMatch m l)).
Proof.
  intros Hmax Hx. apply insertMatch_In in Hx.
  destruct l as [|m' rest]; simpl in *.
  - destruct Hx as [->|[]]. apply Qle_refl.
  - qcases (snd m') (snd m); simpl.
    + destruct Hx as [->|Hx]; [apply Qle_refl|].
      apply Qle_trans with (snd m'); auto.
    + destruct Hx as [->|Hx]; [lra | auto].
Qed.

Lemma sortMatches_hd_max (d x : Z * Q) (l : list (Z * Q)) :
  In x l -> snd x <= snd (hd d (sortMatches l)).
Proof.
  revert x. induction l as [|m rest IH]; intros x Hx; [destruct Hx|].
  simpl. apply hd_insertMatch_max.
  { intros y Hy. apply IH. now apply sortMatches_In. }
  apply insertMatch_In. destruct Hx as [<-|Hx]; [now left|].
  right. now apply sortMatches_In.
Qed.

Lemma sortMatches_hd_In (first : Z * Q) (rest : list (Z * Q)) :
  In (hd first (sortMatches (first :: rest))) (first :: rest).
Proof.
  apply sortMatches_In.
  destruct (sortMatches (first :: rest)) as [|m l] eqn:E.
  - assert (H : In first (sortMatches (first :: rest))).
    { apply sortMatches_In. now left. }
    rewrite E in H. destruct H.
  - now left.
Qed.

(** A polygon record contains the point: one of its exteriors does, outside
    the holes. *)
Definition containedIn (point : Point) (pd : PolygonData) : Prop :=
  exists ring holes,
    In (ringOf ring) (exteriorsOf pd)
    /\ holesOf pd = Ok holes
    /\ pointInPolygonWithHoles point ring holes = true.

Lemma firstMatching_contained (point : Point) (pd : PolygonData)
    (ring : Polygon) (holes : list Polygon) :
  firstMatching point pd (exteriorsOf pd) ring holes ->
  containedIn point pd.
Proof.
  intros (Hh & pre & post & Heq & _ & _ & Hp).
  exists ring, holes. split; [|auto].
  rewrite Heq. apply in_or_app. right. now left.
Qed.

(** A scan of a record that contains the point, when it completes, finds
    an exterior. *)
Lemma scanWith_contained (convert : Ring -> result Polygon)
    (record : Polygon -> list Polygon -> Q) (point : Point)
    (pd : PolygonData) (found : option Q) :
  converts convert ->
  containedIn point pd ->
  scanWith convert record point pd (exteriorsOf pd) = Ok found ->
  found <> None.
Proof.
  intros Hconv (ring & holes & Hin & Hh & Hp) Hs ->.
  destruct (scanWith_none convert record Hconv point pd _ Hs _ Hin)
    as [Hnil|(r & hs & Hr & Hh' & Hp')].
  - apply ringOf_nil in Hnil. subst ring.
    destruct point. simpl in Hp. discriminate.
  - apply ringOf_inj in Hr. congruence.
Qed.

(** Every match comes from a polygon that contains the point and carries
    either the score of the scorer or that score discounted by 0.95. *)
Lemma allMatches_In (loader : DataLoader) (point : Point)
    (candidates : list Z) (ms : list (Z * Q)) (id : Z) (c : Q) :
  allMatches sqrt loader point candidates = Ok ms ->
  In (id, c) ms ->
  exists pd, getPolygon loader id = Some pd
             /\ containedIn point pd /\ 0.475 <= c.
Proof.
  unfold allMatches. intros H.
  apply bind_ok in H as (pm & Hprim & H).
  destruct (List.length pm =? 0)%nat.
  - intros Hin.
    apply (fallbackMatches_In _ _ _ _ _ _ _ H) in Hin
      as (_ & _ & pd & Hpd & Hs).
    apply scanExteriorsFallback_spec in Hs as (ring & holes & Hf & ->).
    exists pd. split; [exact Hpd|].
    split; [eapply firstMatching_contained; eauto|].
    pose proof (ConfidenceProps.calculateConfidence_ge_half sqrt point
                  ring holes 1) as Hh.
    unfold score. lra.
  - injection H as <-. intros Hin.
    apply (primaryMatches_In _ _ _ _ _ _ _ Hprim) in Hin
      as (_ & pd & Hpd & Hs).
    apply scanExteriors_spec in Hs as (ring & holes & Hf & ->).
    exists pd. split; [exact Hpd|].
    split; [eapply firstMatching_contained; eauto|].
    pose proof (ConfidenceProps.calculateConfidence_ge_half sqrt point
                  ring holes
                  (inject_Z (Z.of_nat (List.length candidates)))) as Hh.
    unfold score. lra.
Qed.




(** The match that [resolve] selects, when there is one. *)
Definition selectedOf (matches : list (Z * Q)) : option (Z * Q) :=
  match matches with
  | [] => None
  | first :: _ => Some (hd first (sortMatches matches))
  end.

Definition selectedMatch (lat lon : Q) (loader : DataLoader)
    : option (Z * Q) :=
  match Geohash.encode lat lon Geohash.GEOHASH_PRECISION with
  | Ok g =>
      match findCandidates loader g with
      | Ok cs =>
          match allMatches sqrt loader (lat, lon) cs with
          | Ok matches => selectedOf matches
          | Err _ => None
          end
      | Err _ => None
      end
  | Err _ => None
  end.

Lemma selectedOf_In (matches : list (Z * Q)) (m : Z * Q) :
  selectedOf matches = Some m ->
  In m matches /\ forall x, In x matches -> snd x <= snd m.
Proof.
  destruct matches as [|first rest]; [discriminate|].
  intros [= <-]. split.
  - exact (sortMatches_hd_In first rest).
  - intros x Hx. exact (sortMatches_hd_max first x (first :: rest) Hx).
Qed.

Lemma selectBest_selectedOf (loader : DataLoader) (matches : list (Z * Q)) :
  selectBest loader matches =
    match selectedOf matches with
    | None => Ok noMatch
    | Some (id, c) =>
        match getMetadata loader id with
        | None => Err (MetadataNotFound id)
        | Some meta =>
            Ok (mkResolutionResult (Some id) (Some (Loader.name meta))
                  (Some (Loader.iso2 meta)) (Some (Loader.iso3 meta))
                  (Some (Loader.continent meta))
                  (Some (Loader.timezone meta)) c)
        end
    end.
Proof.
  destruct matches as [|first rest]; [reflexivity|].
  unfold selectBest, selectedOf.
  destruct (hd first (sortMatches (first :: rest))) as [id c].
  reflexivity.
Qed.

Lemma resolve_unfold (lat lon : Q) (loader : DataLoader) (g : string)
    (cs : list Z) :
  Geohash.encode lat lon Geohash.GEOHASH_PRECISION = Ok g ->
  findCandidates loader g = Ok cs ->
  resolve sqrt lat lon loader
  = bind (allMatches sqrt loader (lat, lon) cs) (selectBest loader).
Proof.
  intros Hg Hcs.
  unfold resolve. rewrite Hg. simpl bind. rewrite Hcs. simpl bind.
  destruct cs as [|k cs']; [|reflexivity].
  apply findCandidates_nil in Hcs.
  unfold allMatches. simpl. rewrite Hcs. reflexivity.
Qed.

(** In range, [resolve] is the selection of the best of the matches found
    for the candidates of its geohash. *)
Lemma resolve_in_range (lat lon : Q) (loader : DataLoader) :
  inRange lat lon ->
  exists g cs,
    Geohash.encode lat lon Geohash.GEOHASH_PRECISION = Ok g
    /\ findCandidates loader g = Ok cs
    /\ resolve sqrt lat lon loader
       = bind (allMatches sqrt loader (lat, lon) cs) (selectBest loader).
Proof.
  intros Hr.
  destruct (encode_in_range lat lon Geohash.GEOHASH_PRECISION Hr)
    as (g & Hg & Hlen & Hall).
  destruct (findCandidates_ok loader 5 g (conj Hlen Hall)) as (cs & Hcs).
  exists g, cs. split; [exact Hg|]. split; [exact Hcs|].
  exact (resolve_unfold lat lon loader g cs Hg Hcs).
Qed.

(** The steps of a call of [resolve] that returns. *)
Lemma resolve_ok (lat lon : Q) (loader : DataLoader) (r : ResolutionResult) :
  resolve sqrt lat lon loader = Ok r ->
  exists g cs ms,
    Geohash.encode lat lon Geohash.GEOHASH_PRECISION = Ok g
    /\ findCandidates loader g = Ok cs
    /\ allMatches sqrt loader (lat, lon) cs = Ok ms
    /\ selectBest loader ms = Ok r.
Proof.
  intros H.
  assert (Hg : exists g cs,
             Geohash.encode lat lon Geohash.GEOHASH_PRECISION = Ok g
             /\ findCandidates loader g = Ok cs).
  { unfold resolve in H.
    apply bind_ok in H as (g & Hg & H).
    apply bind_ok in H as (cs & Hcs & _). eauto. }
  destruct Hg as (g & cs & Hg & Hcs).
  rewrite (resolve_unfold lat lon loader g cs Hg Hcs) in H.
  apply bind_ok in H as (ms & Hms & H). eauto 8.
Qed.


(** The selected match is one of the matches, comes from a polygon that
    contains the point, and no match has a higher confidence. *)
Lemma selectedMatch_best (lat lon : Q) (loader : DataLoader) (id : Z)
    (c : Q) :
  selectedMatch lat lon loader = Some (id, c) ->
  exists pd, getPolygon loader id = Some pd
             /\ containedIn (lat, lon) pd /\ 0.475 <= c.
Proof.
  unfold selectedMatch.
  destruct (Geohash.encode lat lon Geohash.GEOHASH_PRECISION) as [g|];
    [|discriminate].
  destruct (findCandidates loader g) as [cs|]; [|discriminate].
  destruct (allMatches sqrt loader (lat, lon) cs) as [ms|] eqn:Hms;
    [|discriminate].
  intros H. apply selectedOf_In in H as [Hin _].
  eapply allMatches_In; eauto.
Qed.





End ScanProps.







End ResolverProps.

(** ** The reverse resolver *)

Module ReverseProps.
Import Loader Reverse.
Local Open Scope string_scope.

(** One record matches the input exactly: on ISO2, on ISO3 or on the
    normalized name. *)
Definition exactMatches (normalizedInput normalizedName : string)
    (meta : CountryMetadata) : bool :=
  iso2Matches normalizedInput meta || iso3Matches normalizedInput meta
  || nameMatches normalizedName meta.

(** [r] is the first entry of [entries] that satisfies [test]. *)
Definition firstSuch (test : CountryMetadata -> bool)
    (entries : list (Z * CountryMetadata)) (r : Z * CountryMetadata) : Prop :=
  exists pre post,
    entries = (pre ++ r :: post)%list
    /\ (forall r', In r' pre -> test (snd r') = false)
    /\ test (snd r) = true.

Lemma exactLoop_first (ni nn : string) (entries : list (Z * CountryMetadata))
    (r : Z * CountryMetadata) :
  firstSuch (exactMatches ni nn) entries r -> exactLoop ni nn entries = Some r.
Proof.
  intros (pre & post & -> & Hpre & Hr).
  induction pre as [|[id m] pre IH]; simpl.
  - destruct r as [id m]. unfold exactMatches in Hr. simpl in Hr.
    destruct (iso2Matches ni m); [reflexivity|].
    destruct (iso3Matches ni m); [reflexivity|].
    destruct (nameMatches nn m); [reflexivity | discriminate].
  - assert (Hm : exactMatches ni nn m = false) by (apply (Hpre (id, m)); now left).
    unfold exactMatches in Hm.
    apply orb_false_iff in Hm as [Hm Hname].
    apply orb_false_iff in Hm as [Hiso2 Hiso3].
    rewrite Hiso2, Hiso3, Hname. apply IH.
    intros r' Hin. apply Hpre. now right.
Qed.

Lemma exactLoop_none (ni nn : string) (entries : list (Z * CountryMetadata)) :
  (forall r, In r entries -> exactMatches ni nn (snd r) = false) ->
  exactLoop ni nn entries = None.
Proof.
  induction entries as [|[id m] rest IH]; intros H; simpl; [reflexivity|].
  assert (Hm : exactMatches ni nn m = false) by (apply (H (id, m)); now left).
  unfold exactMatches in Hm.
  apply orb_false_iff in Hm as [Hm Hname].
  apply orb_false_iff in Hm as [Hiso2 Hiso3].
  rewrite Hiso2, Hiso3, Hname. apply IH.
  intros r Hin. apply H. now right.
Qed.

Lemma partialLoop_first (nn : string) (entries : list (Z * CountryMetadata))
    (r : Z * CountryMetadata) :
  firstSuch (partialMatches nn) entries r -> partialLoop nn entries = Some r.
Proof.
  intros (pre & post & -> & Hpre & Hr).
  induction pre as [|[id m] pre IH]; simpl.
  - destruct r as [id m]. simpl in Hr. now rewrite Hr.
  - assert (Hm : partialMatches nn m = false)
      by (apply (Hpre (id, m)); now left).
    rewrite Hm. apply IH.
    intros r' Hin. apply Hpre. now right.
Qed.

Lemma partialLoop_none (nn : string) (entries : list (Z * CountryMetadata)) :
  (forall r, In r entries -> partialMatches nn (snd r) = false) ->
  partialLoop nn entries = None.
Proof.
  induction entries as [|[id m] rest IH]; intros H; simpl; [reflexivity|].
  assert (Hm : partialMatches nn m = false) by (apply (H (id, m)); now left).
  rewrite Hm. apply IH.
  intros r Hin. apply H. now right.
Qed.

(** The first record is named like the ISO2 code of the second one. *)
Definition norwayStore : DataLoader :=
  mkDataLoader [] []
    [(1%Z, mkCountryMetadata "No" "XN" "XNO" "Europe" "UTC");
     (2%Z, mkCountryMetadata "Norway" "NO" "NOR" "Europe" "Europe/Oslo")].

(** C2, as stated, fails: the ISO2 code of the second record is the input,
    the first record matches on its name only, and the first record is
    returned. *)
Lemma iso2_match_of_later_record_lost :
  iso2Matches (toUpperCase (trim "NO"))
    (mkCountryMetadata "Norway" "NO" "NOR" "Europe" "Europe/Oslo") = true
  /\ iso2Matches (toUpperCase (trim "NO"))
       (mkCountryMetadata "No" "XN" "XNO" "Europe" "UTC") = false
  /\ iso3Matches (toUpperCase (trim "NO"))
       (mkCountryMetadata "No" "XN" "XNO" "Europe" "UTC") = false
  /\ nameMatches (normalizeCountryName "NO")
       (mkCountryMetadata "No" "XN" "XNO" "Europe" "UTC") = true
  /\ findCountryByNameOrIso "NO" norwayStore
     = Some (1%Z, mkCountryMetadata "No" "XN" "XNO" "Europe" "UTC")
  /\ findCountryByNameOrIso "NO" norwayStore
     <> Some (2%Z,
              mkCountryMetadata "Norway" "NO" "NOR" "Europe" "Europe/Oslo").
Proof.
  repeat split; try reflexivity. discriminate.
Qed.

(** C2, amended. [findCountryByNameOrIso] returns the first record, in the
    order of enumeration, that matches the input exactly on ISO2, on ISO3 or
    on the normalized name; when no record matches exactly it returns the
    first record whose normalized name contains the normalized input or is
    contained in it; when no record matches at all it returns nothing. *)
Theorem findCountry_exact_then_partial (countryInput : string)
    (loader : DataLoader) :
  (forall r,
      firstSuch (exactMatches (toUpperCase (trim countryInput))
                   (normalizeCountryName countryInput)) (metadata loader) r ->
      findCountryByNameOrIso countryInput loader = Some r)
  /\ ((forall r, In r (metadata loader) ->
                 exactMatches (toUpperCase (trim countryInput))
                   (normalizeCountryName countryInput) (snd r) = false) ->
      forall r,
        firstSuch (partialMatches (normalizeCountryName countryInput))
          (metadata loader) r ->
        findCountryByNameOrIso countryInput loader = Some r)
  /\ ((forall r, In r (metadata loader) ->
                 exactMatches (toUpperCase (trim countryInput))
                   (normalizeCountryName countryInput) (snd r) = false
                 /\ partialMatches (normalizeCountryName countryInput)
                      (snd r) = false) ->
      findCountryByNameOrIso countryInput loader = None).
Proof.
  unfold findCountryByNameOrIso.
  split; [|split].
  - intros r Hr. now rewrite (exactLoop_first _ _ _ _ Hr).
  - intros Hnone r Hr. rewrite (exactLoop_none _ _ _ Hnone).
    now apply partialLoop_first.
  - intros Hnone.
    rewrite exactLoop_none by (intros r Hr; now apply Hnone).
    apply partialLoop_none. intros r Hr. now apply Hnone.
Qed.

(** Nigeria is enumerated before Niger: the exact name wins over the
    substring of the earlier record, and a substring alone finds the
    earlier record. *)
Definition westAfrica : DataLoader :=
  mkDataLoader [] []
    [(1%Z, mkCountryMetadata "Nigeria" "NG" "NGA" "Africa" "Africa/Lagos");
     (2%Z, mkCountryMetadata "Niger" "NE" "NER" "Africa" "Africa/Niamey")].

Lemma findCountry_exact_then_partial_witness :
  findCountryByNameOrIso "Niger" westAfrica
  = Some (2%Z, mkCountryMetadata "Niger" "NE" "NER" "Africa" "Africa/Niamey")
  /\ findCountryByNameOrIso "Nige" westAfrica
     = Some (1%Z,
             mkCountryMetadata "Nigeria" "NG" "NGA" "Africa" "Africa/Lagos")
  /\ findCountryByNameOrIso "Chad" westAfrica = None.
Proof.
  split; [|split].
  - destruct (findCountry_exact_then_partial "Niger" westAfrica)
      as (Hexact & _ & _).
    apply Hexact.
    exists [(1%Z,
             mkCountryMetadata "Nigeria" "NG" "NGA" "Africa" "Africa/Lagos")],
      [].
    split; [reflexivity|]. split; [|reflexivity].
    intros r' [<-|[]]. reflexivity.
  - destruct (findCountry_exact_then_partial "Nige" westAfrica)
      as (_ & Hpartial & _).
    apply Hpartial.
    + intros r [<-|[<-|[]]]; reflexivity.
    + exists [], [(2%Z, mkCountryMetadata "Niger" "NE" "NER" "Africa"
                          "Africa/Niamey")].
      split; [reflexivity|]. split; [|reflexivity].
      intros r' [].
  - destruct (findCountry_exact_then_partial "Chad" westAfrica)
      as (_ & _ & Hnone).
    apply Hnone.
    intros r [<-|[<-|[]]]; split; reflexivity.
Defined.





(** The loop over the exteriors raises only 'Invalid coordinate format', on
    an exterior that holds [null]. *)
Lemma centroids_err (exts : list Ring) (e : error) :
  centroids exts = Err e ->
  e = InvalidCoordinateFormat /\ exists ext, In ext exts /\ In None ext.
Proof.
  induction exts as [|ext rest IH]; simpl; [discriminate|].
  destruct (Resolver.isEmpty ext).
  - intros H. destruct (IH H) as (He & x & Hin & Hn). eauto.
  - destruct (Resolver.checkedPoints ext) as [points|e'] eqn:Ec; simpl.
    + destruct (centroids rest); simpl; [discriminate|].
      intros [= <-]. destruct (IH eq_refl) as (He & x & Hin & Hn). eauto.
    + intros [= <-].
      apply ResolverProps.checkedPoints_err in Ec as [-> Hn]. eauto.
Qed.

Lemma resolveByCountry_found (countryInput : string) (loader : DataLoader)
    (found : Z * CountryMetadata) :
  findCountryByNameOrIso countryInput loader = Some found ->
  forall s, resolveByCountry countryInput loader <> Err (CountryNotFound s).
Proof.
  intros H s. unfold resolveByCountry. rewrite H. destruct found as [id m].
  destruct (getPolygon loader id) as [pd|]; [|discriminate].
  destruct (List.length (Resolver.exteriorsOf pd) =? 0)%nat; [discriminate|].
  destruct (centroids (Resolver.exteriorsOf pd)) as [cs|e] eqn:Ec; simpl.
  - destruct (List.length cs =? 0)%nat; discriminate.
  - apply centroids_err in Ec as [-> _]. discriminate.
Qed.







End ReverseProps.

(** * Further properties of the codec *)

Module GeohashExtra.
Import Geohash GeohashProps.
Local Open Scope string_scope.

(** The tests [x < bound] and [x > bound] of JavaScript as propositions:
    neither holds of [NaN]. *)
Definition below (x : number) (bound : Q) : Prop :=
  match x with
  | Fin q => q < bound
  | MinusInfinity => True
  | PlusInfinity | NaN => False
  end.

Definition above (x : number) (bound : Q) : Prop :=
  match x with
  | Fin q => bound < q
  | PlusInfinity => True
  | MinusInfinity | NaN => False
  end.

Lemma numLt_below (x : number) (bound : Q) :
  numLt x bound = true <-> below x bound.
Proof.
  destruct x as [q| | |]; [apply numLt_Fin| | |]; simpl;
    split; auto; try discriminate; contradiction.
Qed.

Lemma numGt_above (x : number) (bound : Q) :
  numGt x bound = true <-> above x bound.
Proof.
  destruct x as [q| | |]; [apply numGt_Fin| | |]; simpl;
    split; auto; try discriminate; contradiction.
Qed.

Lemma guard_fires (x : number) (lo hi : Q) :
  numLt x lo || numGt x hi = true <-> below x lo \/ above x hi.
Proof.
  rewrite orb_true_iff, numLt_below, numGt_above. reflexivity.
Qed.

(** X1. [encode] raises the latitude error exactly when [lat < -90] or
    [lat > 90] holds, the longitude error exactly when neither of these
    holds and [lon < -180] or [lon > 180] does, and returns a hash exactly
    when none of the four tests holds.  No test holds of [NaN]:
    [encode(NaN, NaN, precision)] returns a hash. *)
Theorem encode_error_iff (lat0 lon0 : number) (precision : nat) :
  (encode lat0 lon0 precision = Err LatitudeOutOfRange
   <-> below lat0 (-90) \/ above lat0 90)
  /\ (encode lat0 lon0 precision = Err LongitudeOutOfRange
      <-> ~ (below lat0 (-90) \/ above lat0 90)
          /\ (below lon0 (-180) \/ above lon0 180))
  /\ ((exists g, encode lat0 lon0 precision = Ok g)
      <-> ~ (below lat0 (-90) \/ above lat0 90)
          /\ ~ (below lon0 (-180) \/ above lon0 180))
  /\ (exists g, encode NaN NaN precision = Ok g).
Proof.
  pose proof (guard_fires lat0 (-90) 90) as Hlat.
  pose proof (guard_fires lon0 (-180) 180) as Hlon.
  unfold encode.
  destruct (numLt lat0 (-90) || numGt lat0 90);
    [|destruct (numLt lon0 (-180) || numGt lon0 180)].
  - assert (Hf : below lat0 (-90) \/ above lat0 90) by now apply Hlat.
    split; [tauto|]. split; [split; [discriminate | tauto]|].
    split; [|simpl; eauto].
    split; [intros [g Hg]; discriminate | tauto].
  - assert (Hn : ~ (below lat0 (-90) \/ above lat0 90)).
    { intros H. apply Hlat in H. discriminate. }
    assert (Hf : below lon0 (-180) \/ above lon0 180) by now apply Hlon.
    split; [split; [discriminate | tauto]|]. split; [tauto|].
    split; [|simpl; eauto].
    split; [intros [g Hg]; discriminate | tauto].
  - assert (Hn : ~ (below lat0 (-90) \/ above lat0 90)).
    { intros H. apply Hlat in H. discriminate. }
    assert (Hm : ~ (below lon0 (-180) \/ above lon0 180)).
    { intros H. apply Hlon in H. discriminate. }
    split; [split; [discriminate | tauto]|].
    split; [split; [discriminate | tauto]|].
    split; [|simpl; eauto].
    split; [tauto | eauto].
Qed.

(** X2. The hash made by [encode] has one character of the base-32
    alphabet per unit of precision. *)
Theorem encode_output_shape (lat0 lon0 : number) (precision : nat)
    (g : string) :
  encode lat0 lon0 precision = Ok g ->
  String.length g = precision /\ allBase32 g = true.
Proof.
  unfold encode.
  destruct (numLt lat0 (-90) || numGt lat0 90); [discriminate|].
  destruct (numLt lon0 (-180) || numGt lon0 180); [discriminate|].
  intros [= <-].
  assert (H0 : encodeInv 0 encodeInit).
  { unfold encodeInv; simpl. repeat split; try reflexivity; lia. }
  pose proof (encodeLoop_inv lat0 lon0 (precision * bitsPerChar) 0 _ H0)
    as (_ & Hlen & Hall).
  split; [|exact Hall].
  rewrite Hlen. unfold bitsPerChar. rewrite Nat.add_0_l.
  apply Nat.div_mul. discriminate.
Qed.

Lemma encode_output_shape_witness :
  String.length "s7d7w3" = 6%nat /\ allBase32 "s7d7w3" = true.
Proof.
  apply (encode_output_shape 40.7128 (-74.0060) 6 "s7d7w3").
  vm_compute. reflexivity.
Defined.

Lemma encodeLoop_add (lat0 lon0 : number) (n m i : nat) (st : EncodeState) :
  encodeLoop lat0 lon0 (n + m) i st
  = encodeLoop lat0 lon0 m (i + n) (encodeLoop lat0 lon0 n i st).
Proof.
  revert i st. induction n as [|n IH]; intros i st; simpl.
  - now rewrite Nat.add_0_r.
  - rewrite IH. now replace (S i + n)%nat with (i + S n)%nat by lia.
Qed.

Lemma encodeStep_grows (lat0 lon0 : number) (i : nat) (st : EncodeState) :
  exists t, es_geohash (encodeStep lat0 lon0 i st) = es_geohash st ++ t.
Proof.
  unfold encodeStep.
  set (st1 := if Nat.even i then _ else _).
  assert (H1 : es_geohash st1 = es_geohash st).
  { subst st1.
    destruct (Nat.even i);
      [destruct (numGe lon0 _) | destruct (numGe lat0 _)]; reflexivity. }
  destruct (Nat.eqb _ 0); simpl; rewrite ?H1.
  - eauto.
  - exists "". clear. induction (es_geohash st); simpl; congruence.
Qed.

Lemma append_assoc (s t u : string) : (s ++ t) ++ u = s ++ (t ++ u).
Proof. induction s; simpl; congruence. Qed.

Lemma encodeLoop_grows (lat0 lon0 : number) (n i : nat) (st : EncodeState) :
  exists t, es_geohash (encodeLoop lat0 lon0 n i st) = es_geohash st ++ t.
Proof.
  revert i st. induction n as [|n IH]; intros i st; simpl.
  - exists "". clear. induction (es_geohash st); simpl; congruence.
  - destruct (IH (S i) (encodeStep lat0 lon0 i st)) as (t & Ht).
    destruct (encodeStep_grows lat0 lon0 i st) as (t' & Ht').
    exists (t' ++ t). now rewrite Ht, Ht', append_assoc.
Qed.

Lemma prefix_append (s t : string) : prefix s (s ++ t) = true.
Proof.
  induction s as [|c s IH]; simpl.
  - now destruct t.
  - destruct (ascii_dec c c); [exact IH | congruence].
Qed.

(** X3. A hash of lower precision is a prefix of the hash of the same point
    at a higher precision. *)
Theorem encode_prefix (lat0 lon0 : number) (p q : nat) (g g' : string) :
  encode lat0 lon0 p = Ok g ->
  encode lat0 lon0 (p + q) = Ok g' ->
  prefix g g' = true.
Proof.
  unfold encode.
  destruct (numLt lat0 (-90) || numGt lat0 90); [discriminate|].
  destruct (numLt lon0 (-180) || numGt lon0 180); [discriminate|].
  intros [= <-] [= <-].
  rewrite Nat.mul_add_distr_r, encodeLoop_add.
  destruct (encodeLoop_grows lat0 lon0 (q * bitsPerChar)
              (0 + p * bitsPerChar)
              (encodeLoop lat0 lon0 (p * bitsPerChar) 0 encodeInit))
    as (t & Ht).
  rewrite Ht. apply prefix_append.
Qed.

Lemma encode_prefix_witness : prefix "s7d" "s7d7w3" = true.
Proof.
  apply (encode_prefix 40.7128 (-74.0060) 3 3 "s7d" "s7d7w3");
    vm_compute; reflexivity.
Defined.

Lemma decodeLoop_app (g h : string) (st : DecodeState) :
  decodeLoop (g ++ h) st = bind (decodeLoop g st) (decodeLoop h).
Proof.
  revert st. induction g as [|c g IH]; intros st; simpl; [reflexivity|].
  destruct (indexOf c); [apply IH | reflexivity].
Qed.

Lemma decodeLoop_ok_valid (g : string) (st st' : DecodeState) :
  decodeLoop g st = Ok st' -> allBase32 g = true.
Proof.
  revert st. induction g as [|c g IH]; intros st; simpl; [reflexivity|].
  destruct (indexOf c); [apply IH | discriminate].
Qed.

Lemma decodeLoop_first_invalid (pre post : string) (c : ascii)
    (st : DecodeState) :
  allBase32 pre = true -> indexOf c = None ->
  decodeLoop (pre ++ String c post) st = Err (InvalidGeohashCharacter c).
Proof.
  revert st. induction pre as [|c' pre IH]; intros st Hpre Hc; simpl.
  - now rewrite Hc.
  - simpl in Hpre. destruct (indexOf c'); [now apply IH | discriminate].
Qed.

(** X4. [decode] succeeds exactly on the valid geohashes; it reports the
    empty string as such and otherwise the first character that is not in
    the alphabet. *)
Theorem decode_error_iff (g : string) :
  ((exists d, decode g = Ok d) <-> validGeohash g = true)
  /\ (decode g = Err EmptyGeohash <-> g = "")
  /\ (forall pre c post,
         g = pre ++ String c post -> allBase32 pre = true ->
         indexOf c = None ->
         decode g = Err (InvalidGeohashCharacter c)).
Proof.
  split; [|split].
  - split.
    + intros [d Hd]. destruct g as [|c g]; [discriminate|].
      unfold decode in Hd. apply bind_ok in Hd as (st & Hst & _).
      apply decodeLoop_ok_valid in Hst. exact Hst.
    + intros Hv. destruct (decode_valid g Hv) as (d & Hd & _). eauto.
  - split; [|intros ->; reflexivity].
    destruct g as [|c g]; [reflexivity|].
    unfold decode.
    destruct (decodeLoop (String c g) decodeInit) as [st|e] eqn:E;
      simpl; [discriminate|].
    intros [= ->]. exfalso.
    clear -E. generalize dependent decodeInit. generalize (String c g).
    intros s. induction s as [|c' s IH]; intros st E; simpl in E;
      [discriminate|].
    destruct (indexOf c'); [eauto | discriminate].
  - intros pre c post -> Hpre Hc.
    assert (Hne : pre ++ String c post <> "") by (destruct pre; discriminate).
    unfold decode.
    rewrite (decodeLoop_first_invalid pre post c decodeInit Hpre Hc).
    destruct (pre ++ String c post); [congruence | reflexivity].
Qed.

Lemma decode_error_iff_witness :
  decode "s7a" = Err (InvalidGeohashCharacter "a"%char).
Proof.
  apply (proj2 (proj2 (decode_error_iff "s7a")) "s7" "a"%char "");
    reflexivity.
Defined.

(** Powers of two, as numbers. *)
Definition pow2 (n : nat) : Q := inject_Z (2 ^ Z.of_nat n).

Lemma pow2_S (n : nat) : pow2 (S n) == 2 * pow2 n.
Proof.
  unfold pow2. rewrite Nat2Z.inj_succ, Z.pow_succ_r by lia.
  rewrite inject_Z_mult. reflexivity.
Qed.

Lemma half_even (k : nat) :
  Nat.even k = true ->
  ((S k + 1) / 2 = S ((k + 1) / 2) /\ S k / 2 = k / 2)%nat.
Proof.
  intros H. apply Nat.even_spec in H as [m ->].
  pose proof (Nat.div_mod_eq (S (2 * m) + 1) 2).
  pose proof (Nat.div_mod_eq (2 * m + 1) 2).
  pose proof (Nat.div_mod_eq (S (2 * m)) 2).
  pose proof (Nat.div_mod_eq (2 * m) 2).
  pose proof (Nat.mod_upper_bound (S (2 * m) + 1) 2).
  pose proof (Nat.mod_upper_bound (2 * m + 1) 2).
  pose proof (Nat.mod_upper_bound (S (2 * m)) 2).
  pose proof (Nat.mod_upper_bound (2 * m) 2).
  lia.
Qed.

Lemma half_odd (k : nat) :
  Nat.even k = false ->
  ((S k + 1) / 2 = (k + 1) / 2 /\ S k / 2 = S (k / 2))%nat.
Proof.
  intros H.
  assert (Ho : Nat.odd k = true) by (unfold Nat.odd; now rewrite H).
  apply Nat.odd_spec in Ho as [m ->].
  pose proof (Nat.div_mod_eq (S (2 * m + 1) + 1) 2).
  pose proof (Nat.div_mod_eq (2 * m + 1 + 1) 2).
  pose proof (Nat.div_mod_eq (S (2 * m + 1)) 2).
  pose proof (Nat.div_mod_eq (2 * m + 1) 2).
  pose proof (Nat.mod_upper_bound (S (2 * m + 1) + 1) 2).
  pose proof (Nat.mod_upper_bound (2 * m + 1 + 1) 2).
  pose proof (Nat.mod_upper_bound (S (2 * m + 1)) 2).
  pose proof (Nat.mod_upper_bound (2 * m + 1) 2).
  lia.
Qed.

(** What [decode] maintains after [k] bits: the next bit is a longitude bit
    exactly when [k] is even, the ranges stay inside the world, and each
    bit has halved its range. *)
Definition sizeInv (k : nat) (st : DecodeState) : Prop :=
  ds_isEven st = Nat.even k
  /\ (snd (ds_lonRange st) - fst (ds_lonRange st)) * pow2 ((k + 1) / 2) == 360
  /\ (snd (ds_latRange st) - fst (ds_latRange st)) * pow2 (k / 2) == 180
  /\ -90 <= fst (ds_latRange st) /\ snd (ds_latRange st) <= 90
  /\ -180 <= fst (ds_lonRange st) /\ snd (ds_lonRange st) <= 180
  /\ decodeInv st.

Lemma decodeBit_size (idx : Z) (j k : nat) (st : DecodeState) :
  sizeInv k st -> sizeInv (S k) (decodeBit idx j st).
Proof.
  intros (Hev & Hlon & Hlat & B1 & B2 & B3 & B4 & [Ilat Ilon]).
  unfold sizeInv, decodeInv. rewrite Nat.even_succ, <- Nat.negb_even.
  unfold decodeBit. rewrite Hev.
  destruct (Nat.even k) eqn:Ek.
  - destruct (half_even k Ek) as [E1 E2]. rewrite E1, E2.
    destruct (negb _); cbn [fst snd ds_latRange ds_lonRange ds_isEven negb];
      (split; [reflexivity|]);
      (split; [rewrite pow2_S, <- Hlon; unfold midpoint; qconst; ring|]);
      (split; [exact Hlat|]);
      unfold midpoint; qconst; repeat split; lra.
  - destruct (half_odd k Ek) as [E1 E2]. rewrite E1, E2.
    destruct (negb _); cbn [fst snd ds_latRange ds_lonRange ds_isEven negb];
      (split; [reflexivity|]);
      (split; [exact Hlon|]);
      (split; [rewrite pow2_S, <- Hlat; unfold midpoint; qconst; ring|]);
      unfold midpoint; qconst; repeat split; lra.
Qed.

Lemma decodeLoop_size (g : string) (k : nat) (st st' : DecodeState) :
  sizeInv k st -> decodeLoop g st = Ok st' ->
  sizeInv (k + 5 * String.length g) st'.
Proof.
  revert k st. induction g as [|c g IH]; intros k st Hk;
    cbn [decodeLoop String.length].
  - intros [= <-]. now replace (k + 5 * 0)%nat with k by lia.
  - destruct (indexOf c) as [idx|]; [|discriminate].
    intros H.
    replace (k + 5 * S (String.length g))%nat
      with (S (S (S (S (S k)))) + 5 * String.length g)%nat by lia.
    eapply IH; [|exact H].
    unfold decodeChar. simpl fold_left.
    repeat apply decodeBit_size. exact Hk.
Qed.

(** A rational [m / 2 ^ k] with [|m| < 2 ^ 53] and [k <= 1074] is a double:
    an operation of the source whose exact result is such a number is not
    rounded. *)
Definition binary64 (q : Q) : Prop :=
  exists (m : Z) (k : nat),
    (Z.abs m < 2 ^ 53)%Z /\ (k <= 1074)%nat /\ q * pow2 k == inject_Z m.

Lemma pow2_pos (k : nat) : 0 < pow2 k.
Proof.
  unfold pow2. change 0 with (inject_Z 0). rewrite <- Zlt_Qlt.
  apply Z.pow_pos_nonneg; lia.
Qed.

Lemma binary64_intro (q : Q) (z : Z) (k : nat) (b : Z) :
  q * pow2 k == inject_Z z ->
  - inject_Z b <= q -> q <= inject_Z b ->
  (k <= 1074)%nat -> (b * 2 ^ Z.of_nat k < 2 ^ 53)%Z ->
  binary64 q.
Proof.
  intros Hz Hlo Hhi Hk Hb. exists z, k. split; [|auto].
  pose proof (pow2_pos k) as Hp.
  assert (H1 : inject_Z z <= inject_Z (b * 2 ^ Z.of_nat k)).
  { rewrite inject_Z_mult, <- Hz. fold (pow2 k). nra. }
  assert (H2 : inject_Z (- (b * 2 ^ Z.of_nat k)) <= inject_Z z).
  { rewrite inject_Z_opp, inject_Z_mult, <- Hz. fold (pow2 k). nra. }
  rewrite <- Zle_Qle in H1, H2. lia.
Qed.

(** The bounds that [decode] computes lie on a dyadic grid: after [k]
    halvings a bound is an even multiple of [2 ^ -k]. *)
Definition evenGrid (k : nat) (q : Q) : Prop :=
  exists z : Z, q * pow2 k == 2 * inject_Z z.

Lemma evenGrid_S (k : nat) (q : Q) : evenGrid k q -> evenGrid (S k) q.
Proof.
  intros (z & Hz). exists (2 * z)%Z.
  rewrite pow2_S, inject_Z_mult.
  change (inject_Z 2) with 2.
  setoid_replace (q * (2 * pow2 k)) with (2 * (q * pow2 k)) by ring.
  now rewrite Hz.
Qed.

Lemma evenGrid_mid (k : nat) (lo hi : Q) :
  evenGrid k lo -> evenGrid k hi -> evenGrid (S k) (midpoint (lo, hi)).
Proof.
  intros (z1 & H1) (z2 & H2). exists (z1 + z2)%Z.
  unfold midpoint. cbn [fst snd].
  rewrite pow2_S, inject_Z_plus.
  setoid_replace ((lo + hi) / 2 * (2 * pow2 k))
    with (lo * pow2 k + hi * pow2 k) by field.
  rewrite H1, H2. ring.
Qed.

Definition gridInv (k : nat) (st : DecodeState) : Prop :=
  evenGrid (k / 2) (fst (ds_latRange st))
  /\ evenGrid (k / 2) (snd (ds_latRange st))
  /\ evenGrid ((k + 1) / 2) (fst (ds_lonRange st))
  /\ evenGrid ((k + 1) / 2) (snd (ds_lonRange st)).

Lemma decodeBit_grid (idx : Z) (j k : nat) (st : DecodeState) :
  ds_isEven st = Nat.even k -> gridInv k st ->
  gridInv (S k) (decodeBit idx j st).
Proof.
  intros Hev (G1 & G2 & G3 & G4).
  unfold gridInv, decodeBit. rewrite Hev.
  destruct (Nat.even k) eqn:Ek.
  - destruct (half_even k Ek) as [E1 E2]. rewrite E1, E2.
    destruct (negb _); cbn [fst snd ds_latRange ds_lonRange];
      repeat split; auto using evenGrid_S.
    + apply (evenGrid_mid _ (fst (ds_lonRange st)) (snd (ds_lonRange st)));
        assumption.
    + apply (evenGrid_mid _ (fst (ds_lonRange st)) (snd (ds_lonRange st)));
        assumption.
  - destruct (half_odd k Ek) as [E1 E2]. rewrite E1, E2.
    destruct (negb _); cbn [fst snd ds_latRange ds_lonRange];
      repeat split; auto using evenGrid_S.
    + apply (evenGrid_mid _ (fst (ds_latRange st)) (snd (ds_latRange st)));
        assumption.
    + apply (evenGrid_mid _ (fst (ds_latRange st)) (snd (ds_latRange st)));
        assumption.
Qed.

Lemma decodeBit_size_grid (idx : Z) (j k : nat) (st : DecodeState) :
  sizeInv k st /\ gridInv k st ->
  sizeInv (S k) (decodeBit idx j st) /\ gridInv (S k) (decodeBit idx j st).
Proof.
  intros [Hs Hg]. split; [now apply decodeBit_size|].
  apply decodeBit_grid; [apply Hs | exact Hg].
Qed.

Lemma decodeLoop_grid (g : string) (k : nat) (st st' : DecodeState) :
  sizeInv k st /\ gridInv k st -> decodeLoop g st = Ok st' ->
  gridInv (k + 5 * String.length g) st'.
Proof.
  revert k st. induction g as [|c g IH]; intros k st Hk;
    cbn [decodeLoop String.length].
  - intros [= <-]. replace (k + 5 * 0)%nat with k by lia. apply Hk.
  - destruct (indexOf c) as [idx|]; [|discriminate].
    intros H.
    replace (k + 5 * S (String.length g))%nat
      with (S (S (S (S (S k)))) + 5 * String.length g)%nat by lia.
    eapply IH; [|exact H].
    unfold decodeChar. simpl fold_left.
    repeat apply decodeBit_size_grid. exact Hk.
Qed.

Lemma pow2_le (k n : nat) (b : Z) :
  (k <= n)%nat -> (0 <= b)%Z ->
  (b * 2 ^ Z.of_nat n < 2 ^ 53)%Z -> (b * 2 ^ Z.of_nat k < 2 ^ 53)%Z.
Proof.
  intros Hk Hb Hn.
  assert (H : (2 ^ Z.of_nat k <= 2 ^ Z.of_nat n)%Z)
    by (apply Z.pow_le_mono_r; lia).
  nia.
Qed.

(** A bound on the grid of at most 45 halvings, inside the world, is a
    double; so are the sum and the midpoint of two such bounds. *)
Lemma evenGrid_binary64 (k : nat) (q : Q) :
  (k <= 45)%nat -> evenGrid k q -> -180 <= q -> q <= 180 -> binary64 q.
Proof.
  intros Hk (z & Hz) Hlo Hhi.
  apply (binary64_intro q (2 * z) k 180).
  - now rewrite inject_Z_mult.
  - exact Hlo.
  - exact Hhi.
  - lia.
  - apply (pow2_le k 45); [exact Hk | lia | reflexivity].
Qed.

Lemma midpoint_binary64 (k : nat) (lo hi : Q) :
  (k <= 45)%nat -> evenGrid k lo -> evenGrid k hi ->
  -180 <= lo -> lo <= hi -> hi <= 180 ->
  binary64 (lo + hi) /\ binary64 (midpoint (lo, hi)).
Proof.
  intros Hk (z1 & H1) (z2 & H2) Hlo Hle Hhi. split.
  - destruct k as [|k'].
    + apply (binary64_intro (lo + hi) (2 * (z1 + z2)) 0 360);
        [|unfold inject_Z; lra|unfold inject_Z; lra|lia|reflexivity].
      rewrite inject_Z_mult, inject_Z_plus.
      change (inject_Z 2) with 2.
      setoid_replace ((lo + hi) * pow2 0) with (lo * pow2 0 + hi * pow2 0)
        by ring.
      rewrite H1, H2. ring.
    + apply (binary64_intro (lo + hi) (z1 + z2) k' 360);
        [|unfold inject_Z; lra|unfold inject_Z; lra|lia|].
      * rewrite pow2_S in H1, H2. rewrite inject_Z_plus.
        setoid_replace ((lo + hi) * pow2 k')
          with ((lo * (2 * pow2 k') + hi * (2 * pow2 k')) / 2) by field.
        rewrite H1, H2. field.
      * apply (pow2_le k' 44); [lia | lia | reflexivity].
  - apply (binary64_intro (midpoint (lo, hi)) (z1 + z2) k 180).
    + unfold midpoint. cbn [fst snd]. rewrite inject_Z_plus.
      setoid_replace ((lo + hi) / 2 * pow2 k)
        with ((lo * pow2 k + hi * pow2 k) / 2) by field.
      rewrite H1, H2. field.
    + unfold midpoint, inject_Z. cbn [fst snd]. qconst. lra.
    + unfold midpoint, inject_Z. cbn [fst snd]. qconst. lra.
    + lia.
    + apply (pow2_le k 45); [exact Hk | lia | reflexivity].
Qed.

(** X5. The cell of a geohash of [n] characters, [n] at most 18, lies
    inside the world; its longitude range is 360 degrees halved
    [ceil(5n/2)] times and its latitude range 180 degrees halved
    [floor(5n/2)] times, and the decoded point is strictly inside the cell.
    Every number computed on the way is a double: the bounds of the cell,
    their sums and the decoded point, so that the source runs these very
    halvings without rounding. *)
Theorem decode_cell_size (g : string) (d : Decoded) :
  (String.length g <= 18)%nat ->
  decode g = Ok d ->
  (snd (lonRange d) - fst (lonRange d))
    * pow2 ((5 * String.length g + 1) / 2) == 360
  /\ (snd (latRange d) - fst (latRange d))
       * pow2 (5 * String.length g / 2) == 180
  /\ (-90 <= fst (latRange d) /\ snd (latRange d) <= 90)
  /\ (-180 <= fst (lonRange d) /\ snd (lonRange d) <= 180)
  /\ (fst (latRange d) < lat d /\ lat d < snd (latRange d))
  /\ (fst (lonRange d) < lon d /\ lon d < snd (lonRange d))
  /\ (binary64 (fst (latRange d)) /\ binary64 (snd (latRange d))
      /\ binary64 (fst (latRange d) + snd (latRange d))
      /\ binary64 (lat d))
  /\ (binary64 (fst (lonRange d)) /\ binary64 (snd (lonRange d))
      /\ binary64 (fst (lonRange d) + snd (lonRange d))
      /\ binary64 (lon d)).
Proof.
  intros Hlen Hd. destruct g as [|c g]; [discriminate|].
  unfold decode in Hd. apply bind_ok in Hd as (st & Hst & Hd).
  injection Hd as <-.
  assert (H0 : sizeInv 0 decodeInit).
  { unfold sizeInv, decodeInv, pow2. simpl. repeat split; lra. }
  assert (G0 : gridInv 0 decodeInit).
  { unfold gridInv, decodeInit. cbn [fst snd ds_latRange ds_lonRange].
    repeat split;
      [exists (-45)%Z | exists 45%Z | exists (-90)%Z | exists 90%Z];
      reflexivity. }
  pose proof (decodeLoop_grid _ 0 _ _ (conj H0 G0) Hst)
    as (G1 & G2 & G3 & G4).
  apply (decodeLoop_size _ 0 _ _ H0) in Hst.
  destruct Hst as (_ & Hlon & Hlat & B1 & B2 & B3 & B4 & [Ilat Ilon]).
  cbn [lat lon latRange lonRange]. rewrite Nat.add_0_l in *.
  set (n := String.length (String c g)) in *.
  assert (Hk1 : (5 * n / 2 <= 45)%nat).
  { apply Nat.Div0.div_le_upper_bound. lia. }
  assert (Hk2 : ((5 * n + 1) / 2 <= 45)%nat).
  { assert (H : ((5 * n + 1) / 2 < 46)%nat); [|lia].
    apply Nat.Div0.div_lt_upper_bound. lia. }
  destruct st as [[la lb] [lc ld] ev].
  cbn [fst snd ds_latRange ds_lonRange] in *.
  destruct (midpoint_binary64 _ _ _ Hk1 G1 G2) as [S1 M1]; try lra.
  destruct (midpoint_binary64 _ _ _ Hk2 G3 G4) as [S2 M2]; try lra.
  repeat split; auto;
    try (unfold midpoint; cbn [fst snd]; qconst; lra);
    try (eapply evenGrid_binary64; [| eassumption | lra | lra]; assumption).
Qed.

Lemma decode_cell_size_witness :
  exists d, decode "s7d7w3" = Ok d
            /\ (snd (lonRange d) - fst (lonRange d)) * pow2 15 == 360
            /\ (snd (latRange d) - fst (latRange d)) * pow2 15 == 180.
Proof.
  destruct (decode_valid "s7d7w3" eq_refl) as (d & Hd & _).
  exists d. split; [exact Hd|].
  destruct (decode_cell_size "s7d7w3" d) as (Hlon & Hlat & _);
    [simpl; lia | exact Hd |].
  split; [exact Hlon | exact Hlat].
Defined.

(** One state of [decode] is inside another one. *)
Definition nested (outer inner : DecodeState) : Prop :=
  fst (ds_latRange outer) <= fst (ds_latRange inner)
  /\ snd (ds_latRange inner) <= snd (ds_latRange outer)
  /\ fst (ds_lonRange outer) <= fst (ds_lonRange inner)
  /\ snd (ds_lonRange inner) <= snd (ds_lonRange outer).

Lemma decodeBit_nested (idx : Z) (j : nat) (outer st : DecodeState) :
  decodeInv st -> nested outer st -> nested outer (decodeBit idx j st).
Proof.
  intros [Ilat Ilon] (N1 & N2 & N3 & N4). unfold nested, decodeBit, midpoint.
  destruct (ds_isEven st); destruct (negb _);
    cbn [fst snd ds_latRange ds_lonRange]; qconst; repeat split; lra.
Qed.

Lemma decodeChar_nested (idx : Z) (outer st : DecodeState) :
  decodeInv st -> nested outer st -> nested outer (decodeChar idx st).
Proof.
  intros Hinv Hn. unfold decodeChar. simpl fold_left.
  repeat (apply decodeBit_nested; [repeat apply decodeBit_inv; exact Hinv|]).
  exact Hn.
Qed.

Lemma decodeLoop_nested (g : string) (outer st st' : DecodeState) :
  decodeInv st -> nested outer st -> decodeLoop g st = Ok st' ->
  nested outer st' /\ decodeInv st'.
Proof.
  revert st. induction g as [|c g IH]; intros st Hinv Hn; simpl.
  - intros [= <-]. auto.
  - destruct (indexOf c) as [idx|]; [|discriminate].
    apply IH; [now apply decodeChar_inv | now apply decodeChar_nested].
Qed.

(** X6. Appending characters to a geohash narrows its cell: the cell of
    [g ++ h] lies inside the cell of [g]. *)
Theorem decode_prefix_nested (g h : string) (d d' : Decoded) :
  decode g = Ok d -> decode (g ++ h) = Ok d' ->
  fst (latRange d) <= fst (latRange d')
  /\ snd (latRange d') <= snd (latRange d)
  /\ fst (lonRange d) <= fst (lonRange d')
  /\ snd (lonRange d') <= snd (lonRange d).
Proof.
  intros Hd Hd'. destruct g as [|c g]; [discriminate|].
  unfold decode in Hd. apply bind_ok in Hd as (st & Hst & Hd).
  injection Hd as <-.
  change (String c g ++ h) with (String c (g ++ h)) in Hd'.
  unfold decode in Hd'. apply bind_ok in Hd' as (st' & Hst' & Hd').
  injection Hd' as <-.
  change (String c (g ++ h)) with (String c g ++ h) in Hst'.
  rewrite decodeLoop_app, Hst in Hst'. simpl in Hst'.
  assert (Hinit : decodeInv decodeInit) by (unfold decodeInv; simpl; lra).
  assert (Hn0 : nested decodeInit decodeInit)
    by (unfold nested; simpl; repeat split; lra).
  destruct (decodeLoop_nested _ _ _ _ Hinit Hn0 Hst) as [_ Hinv].
  assert (Hnn : nested st st).
  { unfold nested. repeat split; apply Qle_refl. }
  destruct (decodeLoop_nested h st st st' Hinv Hnn Hst') as [Hn _].
  exact Hn.
Qed.

Lemma decode_prefix_nested_witness :
  exists d d', decode "s7" = Ok d /\ decode "s7d7w3" = Ok d'
               /\ fst (latRange d) <= fst (latRange d')
               /\ snd (latRange d') <= snd (latRange d)
               /\ fst (lonRange d) <= fst (lonRange d')
               /\ snd (lonRange d') <= snd (lonRange d).
Proof.
  destruct (decode_valid "s7" eq_refl) as (d & Hd & _).
  destruct (decode_valid "s7d7w3" eq_refl) as (d' & Hd' & _).
  exists d, d'. split; [exact Hd|]. split; [exact Hd'|].
  exact (decode_prefix_nested "s7" "d7w3" d d' Hd Hd').
Defined.

Lemma validGeohash_false_decode (g : string) :
  validGeohash g = false -> exists e, decode g = Err e.
Proof.
  intros Hv. destruct (decode g) as [d|e] eqn:E; [|eauto].
  destruct g as [|c g]; [discriminate|].
  unfold decode in E. apply bind_ok in E as (st & Hst & _).
  apply decodeLoop_ok_valid in Hst. unfold validGeohash in Hv. congruence.
Qed.

(** X7. [getNeighbors] fails exactly when [decode] does, with the same
    error; on a valid geohash every neighbour it returns is again a valid
    geohash. *)
Theorem getNeighbors_closed (g : string) :
  (validGeohash g = true ->
   exists l, getNeighbors g = Ok l
             /\ Forall (fun h => validGeohash h = true) l)
  /\ (validGeohash g = false ->
      exists e, decode g = Err e /\ getNeighbors g = Err e).
Proof.
  split.
  - intros Hv.
    destruct (getNeighbors_valid g Hv) as (l & Hl & _ & Hf).
    exists l. split; [exact Hl|].
    eapply Forall_impl; [|exact Hf].
    intros h Hh. destruct g as [|c g]; [discriminate|].
    exact (ResolverProps.goodHash_valid _ _ Hh).
  - intros Hv. destruct (validGeohash_false_decode g Hv) as (e & He).
    exists e. split; [exact He|]. unfold getNeighbors. now rewrite He.
Qed.

Lemma getNeighbors_closed_witness :
  (exists l, getNeighbors "s7d7w3" = Ok l
             /\ Forall (fun h => validGeohash h = true) l)
  /\ (exists e, decode "" = Err e /\ getNeighbors "" = Err e).
Proof.
  split.
  - apply (getNeighbors_closed "s7d7w3"). reflexivity.
  - apply (getNeighbors_closed ""). reflexivity.
Defined.

(** X8. At a precision of at least one, the hash of a point in range always
    decodes; at precision zero [encode] returns the empty string, which
    [decode] rejects. *)
Theorem decode_encode_total (lat0 lon0 : Q) (precision : nat) :
  inRange lat0 lon0 ->
  (exists g, encode lat0 lon0 precision = Ok g
             /\ (precision <> 0%nat -> exists d, decode g = Ok d))
  /\ encode lat0 lon0 0 = Ok ""
  /\ decode "" = Err EmptyGeohash.
Proof.
  intros Hr. split; [|split; [|reflexivity]].
  - destruct (encode_in_range lat0 lon0 precision Hr)
      as (g & Hg & Hlen & Hall).
    exists g. split; [exact Hg|]. intros Hp.
    destruct precision as [|p]; [congruence|].
    destruct (decode_valid g (ResolverProps.goodHash_valid p g (conj Hlen Hall)))
      as (d & Hd & _). eauto.
  - destruct (encode_in_range lat0 lon0 0 Hr) as (g & Hg & Hlen & _).
    rewrite Hg. destruct g; [reflexivity | discriminate].
Qed.

Lemma decode_encode_total_witness :
  (exists g, encode 1 (-1) 1 = Ok g
             /\ (1%nat <> 0%nat -> exists d, decode g = Ok d))
  /\ encode 1 (-1) 0 = Ok ""
  /\ decode "" = Err EmptyGeohash.
Proof.
  apply (decode_encode_total 1 (-1) 1). unfold inRange. lra.
Defined.

End GeohashExtra.

(** * Further properties of the point-in-polygon test *)

Module PipExtra.
Import Pip.

(** X9. On an axis-aligned rectangle the test is exact and half-open: a
    point is inside when its latitude is in [[a, b)] and its longitude in
    [[c, d)]; the southern and western sides belong to the rectangle, the
    northern and eastern sides do not. *)
Theorem pointInPolygon_rectangle (a b c d lat0 lon0 : Q) :
  a < b -> c < d ->
  (pointInPolygon (lat0, lon0) [(a, c); (a, d); (b, d); (b, c)] = true
   <-> (a <= lat0 /\ lat0 < b) /\ (c <= lon0 /\ lon0 < d)).
Proof.
  intros Hab Hcd.
  unfold pointInPolygon. cbn [List.length Nat.ltb Nat.leb last rayLoop].
  unfold crossing, Qltb.
  rewrite !Qeq_bool_refl. cbn [negb].
  qcases a lat0; qcases b lat0; cbn [negb Bool.eqb];
    qcases c lon0; qcases d lon0; cbn [negb Bool.eqb];
    split; intros H; try discriminate; try reflexivity; try lra;
    try (repeat split; lra).
Qed.

Lemma pointInPolygon_rectangle_witness :
  pointInPolygon (0, 0) [(0, 0); (0, 1); (1, 1); (1, 0)] = true.
Proof.
  apply (pointInPolygon_rectangle 0 1 0 1 0 0); lra.
Defined.

Lemma last_indep {A : Type} (l : list A) (d d' : A) :
  l <> [] -> last l d = last l d'.
Proof.
  induction l as [|x l IH]; [congruence|]. intros _.
  destruct l as [|y l]; [reflexivity|].
  apply IH. discriminate.
Qed.

(** The toggle of one edge does not depend on the count so far. *)
Lemma crossing_xorb (point p_i p_j : Point) (inside : bool) :
  crossing point p_i p_j inside
  = xorb (crossing point p_i p_j false) inside.
Proof.
  unfold crossing. destruct point as [lat0 lon0].
  destruct p_i as [lat_i lon_i], p_j as [lat_j lon_j].
  destruct (negb (Bool.eqb _ _)); [|now destruct inside].
  destruct (Qltb lon0 _); now destruct inside.
Qed.

Lemma rayLoop_xorb (point p_j : Point) (rest : Polygon) (inside : bool) :
  rayLoop point p_j rest inside
  = xorb (rayLoop point p_j rest false) inside.
Proof.
  revert p_j inside. induction rest as [|p rest IH]; intros p_j inside; simpl.
  - reflexivity.
  - rewrite IH, (IH p (crossing point p p_j false)), crossing_xorb.
    now destruct (rayLoop point p rest false),
      (crossing point p p_j false), inside.
Qed.

Lemma rayLoop_app (point p_j : Point) (xs ys : Polygon) (inside : bool) :
  rayLoop point p_j (xs ++ ys) inside
  = rayLoop point (last xs p_j) ys (rayLoop point p_j xs inside).
Proof.
  revert p_j inside. induction xs as [|x xs IH]; intros p_j inside;
    [reflexivity|].
  cbn [app rayLoop]. rewrite IH.
  destruct xs as [|y xs]; [reflexivity|].
  change (last (x :: y :: xs) p_j) with (last (y :: xs) p_j).
  now rewrite (last_indep (y :: xs) p_j x) by discriminate.
Qed.

(** X10. The result does not depend on the vertex at which the ring
    starts. *)
Theorem pointInPolygon_rotate (point p : Point) (rest : Polygon) :
  pointInPolygon point (rest ++ [p]) = pointInPolygon point (p :: rest).
Proof.
  unfold pointInPolygon.
  rewrite length_app, Nat.add_comm. cbn [List.length Nat.add].
  destruct (S (List.length rest) <? 3)%nat; [reflexivity|].
  rewrite last_last, rayLoop_app. cbn [rayLoop].
  destruct rest as [|r rest].
  - reflexivity.
  - change (last (p :: r :: rest) (0, 0)) with (last (r :: rest) (0, 0)).
    rewrite (last_indep (r :: rest) (0, 0) p) by discriminate.
    rewrite crossing_xorb.
    rewrite (rayLoop_xorb point p (r :: rest)
               (crossing point p (last (r :: rest) p) false)).
    apply xorb_comm.
Qed.

(** The vertex lies strictly north of the latitude [lat0]. *)
Definition northOf (lat0 : Q) (p : Point) : bool := Qltb lat0 (fst p).

Lemma crossing_same_side (point p_i p_j : Point) (inside : bool) :
  northOf (fst point) p_i = northOf (fst point) p_j ->
  crossing point p_i p_j inside = inside.
Proof.
  unfold crossing, northOf. destruct point as [lat0 lon0].
  destruct p_i as [lat_i lon_i], p_j as [lat_j lon_j]. simpl.
  intros ->. now rewrite Bool.eqb_reflx.
Qed.

Lemma Qltb_true (x y : Q) : Qltb x y = true <-> x < y.
Proof.
  unfold Qltb. qcases y x; simpl; split; intros; try discriminate;
    try reflexivity; lra.
Qed.

Lemma Qltb_false (x y : Q) : Qltb x y = false <-> y <= x.
Proof.
  unfold Qltb. qcases y x; simpl; split; intros; try discriminate;
    try reflexivity; lra.
Qed.

Lemma rayLoop_same_side (point p_j : Point) (rest : Polygon) (inside : bool) :
  (forall p, In p (p_j :: rest) ->
             northOf (fst point) p = northOf (fst point) p_j) ->
  rayLoop point p_j rest inside = inside.
Proof.
  revert p_j inside. induction rest as [|p rest IH]; intros p_j inside H;
    [reflexivity|].
  cbn [rayLoop]. rewrite crossing_same_side.
  - apply IH. intros q Hq.
    rewrite (H p) by (right; now left).
    apply H. destruct Hq as [<-|Hq]; [right; now left | right; now right].
  - apply H. right. now left.
Qed.

Lemma last_In {A : Type} (l : list A) (d : A) : l <> [] -> In (last l d) l.
Proof.
  induction l as [|x l IH]; [congruence|]. intros _.
  destruct l as [|y l]; [now left|].
  right. apply IH. discriminate.
Qed.

Lemma outside_ring_false (lat0 lon0 : Q) (ring : Polygon) :
  (forall p, In p ring -> fst p <= lat0)
  \/ (forall p, In p ring -> lat0 < fst p) ->
  pointInPolygon (lat0, lon0) ring = false.
Proof.
  intros H. unfold pointInPolygon.
  destruct (List.length ring <? 3)%nat eqn:El; [reflexivity|].
  assert (Hne : ring <> []) by (intros ->; discriminate).
  pose proof (last_In ring (0, 0) Hne) as Hlast.
  destruct H as [H|H].
  - apply rayLoop_same_side. cbn [fst]. intros p Hp. unfold northOf.
    assert (Hp' : In p ring) by (destruct Hp as [<-|Hp]; auto).
    rewrite (proj2 (Qltb_false lat0 (fst p)) (H p Hp')).
    now rewrite (proj2 (Qltb_false lat0 _) (H _ Hlast)).
  - apply rayLoop_same_side. cbn [fst]. intros p Hp. unfold northOf.
    assert (Hp' : In p ring) by (destruct Hp as [<-|Hp]; auto).
    rewrite (proj2 (Qltb_true lat0 (fst p)) (H p Hp')).
    now rewrite (proj2 (Qltb_true lat0 _) (H _ Hlast)).
Qed.

(** X11. A point is never inside a ring that lies entirely to one side of
    its latitude: all vertices at or south of it, or all strictly north of
    it.  No edge then straddles the latitude of the point, and no
    intersection is computed. *)
Theorem pointInPolygon_outside_box (lat0 lon0 : Q) (ring : Polygon) :
  (forall p, In p ring -> fst p <= lat0)
  \/ (forall p, In p ring -> lat0 < fst p) ->
  pointInPolygon (lat0, lon0) ring = false.
Proof.
  intros H. destruct H as [H|H]; apply outside_ring_false; tauto.
Qed.

Lemma pointInPolygon_outside_box_witness :
  pointInPolygon (2, 0.5) [(0, 0); (0, 1); (1, 1); (1, 0)] = false.
Proof.
  apply (pointInPolygon_outside_box 2 0.5 [(0, 0); (0, 1); (1, 1); (1, 0)]).
  left. intros p [<-|[<-|[<-|[<-|[]]]]]; simpl; lra.
Defined.

End PipExtra.

(** * Bounding boxes and centroids *)

Module PolygonExtra.
Import Pip PolygonUtils.

Lemma mathMin_le (x : Q) (rest : list Q) :
  mathMin x rest <= x /\ forall y, In y rest -> mathMin x rest <= y.
Proof.
  unfold mathMin. revert x.
  induction rest as [|z rest IH]; intros x; simpl.
  - split; [apply Qle_refl | intros y []].
  - destruct (IH (Qmin x z)) as [H1 H2]. split.
    + eapply Qle_trans; [exact H1 | apply Q.le_min_l].
    + intros y [<-|Hy]; [|auto].
      eapply Qle_trans; [exact H1 | apply Q.le_min_r].
Qed.

Lemma mathMax_ge (x : Q) (rest : list Q) :
  x <= mathMax x rest /\ forall y, In y rest -> y <= mathMax x rest.
Proof.
  unfold mathMax. revert x.
  induction rest as [|z rest IH]; intros x; simpl.
  - split; [apply Qle_refl | intros y []].
  - destruct (IH (Qmax x z)) as [H1 H2]. split.
    + eapply Qle_trans; [apply Q.le_max_l | exact H1].
    + intros y [<-|Hy]; [|auto].
      eapply Qle_trans; [apply Q.le_max_r | exact H1].
Qed.

Lemma mathMin_attained (x : Q) (rest : list Q) :
  exists y, In y (x :: rest) /\ mathMin x rest == y.
Proof.
  unfold mathMin. revert x.
  induction rest as [|z rest IH]; intros x; simpl.
  - exists x. split; [now left | reflexivity].
  - destruct (IH (Qmin x z)) as (y & [<-|Hy] & Hm).
    + destruct (Q.min_spec x z) as [[_ E]|[_ E]].
      * exists x. split; [now left | now rewrite Hm].
      * exists z. split; [right; now left | now rewrite Hm].
    + exists y. split; [right; now right | exact Hm].
Qed.

Lemma mathMax_attained (x : Q) (rest : list Q) :
  exists y, In y (x :: rest) /\ mathMax x rest == y.
Proof.
  unfold mathMax. revert x.
  induction rest as [|z rest IH]; intros x; simpl.
  - exists x. split; [now left | reflexivity].
  - destruct (IH (Qmax x z)) as (y & [<-|Hy] & Hm).
    + destruct (Q.max_spec x z) as [[_ E]|[_ E]].
      * exists z. split; [right; now left | now rewrite Hm].
      * exists x. split; [now left | now rewrite Hm].
    + exists y. split; [right; now right | exact Hm].
Qed.

Lemma box_bounds (polygon : Polygon) (p : Point) :
  In p polygon ->
  minLat (calculateBoundingBox polygon) <= fst p
  /\ fst p <= maxLat (calculateBoundingBox polygon)
  /\ minLon (calculateBoundingBox polygon) <= snd p
  /\ snd p <= maxLon (calculateBoundingBox polygon).
Proof.
  destruct polygon as [|q rest]; [intros []|].
  cbn [calculateBoundingBox minLat maxLat minLon maxLon].
  destruct (mathMin_le (fst q) (map fst rest)) as [A1 A2].
  destruct (mathMax_ge (fst q) (map fst rest)) as [B1 B2].
  destruct (mathMin_le (snd q) (map snd rest)) as [C1 C2].
  destruct (mathMax_ge (snd q) (map snd rest)) as [D1 D2].
  intros [<-|Hp]; [auto|].
  repeat split;
    [apply A2 | apply B2 | apply C2 | apply D2]; now apply in_map.
Qed.

(** X12. The bounding box of a non-empty ring contains every vertex, and
    each of its four bounds is the coordinate of some vertex; the box of
    the empty ring is the point (0, 0). *)
Theorem calculateBoundingBox_tight (polygon : Polygon) :
  (forall p, In p polygon ->
     minLat (calculateBoundingBox polygon) <= fst p
     /\ fst p <= maxLat (calculateBoundingBox polygon)
     /\ minLon (calculateBoundingBox polygon) <= snd p
     /\ snd p <= maxLon (calculateBoundingBox polygon))
  /\ (polygon <> [] ->
      (exists p, In p polygon
                 /\ minLat (calculateBoundingBox polygon) == fst p)
      /\ (exists p, In p polygon
                    /\ maxLat (calculateBoundingBox polygon) == fst p)
      /\ (exists p, In p polygon
                    /\ minLon (calculateBoundingBox polygon) == snd p)
      /\ (exists p, In p polygon
                    /\ maxLon (calculateBoundingBox polygon) == snd p))
  /\ calculateBoundingBox [] = mkBoundingBox 0.0 0.0 0.0 0.0.
Proof.
  split; [exact (box_bounds polygon)|]. split; [|reflexivity].
  intros Hne. destruct polygon as [|q rest]; [congruence|].
  cbn [calculateBoundingBox minLat maxLat minLon maxLon].
  change (fst q :: map fst rest) with (map fst (q :: rest)).
  repeat split.
  - destruct (mathMin_attained (fst q) (map fst rest)) as (y & Hy & E).
    change (fst q :: map fst rest) with (map fst (q :: rest)) in Hy.
    apply in_map_iff in Hy as (p & <- & Hp). eauto.
  - destruct (mathMax_attained (fst q) (map fst rest)) as (y & Hy & E).
    change (fst q :: map fst rest) with (map fst (q :: rest)) in Hy.
    apply in_map_iff in Hy as (p & <- & Hp). eauto.
  - destruct (mathMin_attained (snd q) (map snd rest)) as (y & Hy & E).
    change (snd q :: map snd rest) with (map snd (q :: rest)) in Hy.
    apply in_map_iff in Hy as (p & <- & Hp). eauto.
  - destruct (mathMax_attained (snd q) (map snd rest)) as (y & Hy & E).
    change (snd q :: map snd rest) with (map snd (q :: rest)) in Hy.
    apply in_map_iff in Hy as (p & <- & Hp). eauto.
Qed.

Lemma calculateBoundingBox_tight_witness :
  minLat (calculateBoundingBox (Sample.square 0 4)) <= 4
  /\ 4 <= maxLat (calculateBoundingBox (Sample.square 0 4))
  /\ minLon (calculateBoundingBox (Sample.square 0 4)) <= 0
  /\ 0 <= maxLon (calculateBoundingBox (Sample.square 0 4)).
Proof.
  apply (proj1 (calculateBoundingBox_tight (Sample.square 0 4)) (4, 0)).
  right. right. right. now left.
Defined.

(** X14. The latitude of a point inside a ring lies in the latitude range
    of the bounding box of the ring: it is at least the minimum and
    strictly below the maximum. *)
Theorem pointInPolygon_in_bounding_box (lat0 lon0 : Q) (ring : Polygon) :
  pointInPolygon (lat0, lon0) ring = true ->
  minLat (calculateBoundingBox ring) <= lat0
  /\ lat0 < maxLat (calculateBoundingBox ring).
Proof.
  intros Hin.
  assert (Hout : forall
             (H : (forall p, In p ring -> fst p <= lat0)
                  \/ (forall p, In p ring -> lat0 < fst p)), False).
  { intros H. apply (PipExtra.outside_ring_false lat0 lon0) in H.
    congruence. }
  set (bb := calculateBoundingBox ring) in *.
  pose proof (box_bounds ring) as Hb. fold bb in Hb.
  split.
  - destruct (Qlt_le_dec lat0 (minLat bb)) as [H|H]; [|exact H].
    exfalso. apply Hout. right. intros p Hp.
    destruct (Hb p Hp) as (A & _). lra.
  - destruct (Qlt_le_dec lat0 (maxLat bb)) as [H|H]; [exact H|].
    exfalso. apply Hout. left. intros p Hp.
    destruct (Hb p Hp) as (_ & B & _). lra.
Qed.

Lemma pointInPolygon_in_bounding_box_witness :
  minLat (calculateBoundingBox (Sample.square 0 4)) <= 3
  /\ 3 < maxLat (calculateBoundingBox (Sample.square 0 4)).
Proof.
  apply (pointInPolygon_in_bounding_box 3 3 (Sample.square 0 4)).
  reflexivity.
Defined.

(** X15. Converting GeoJSON pairs swaps the two coordinates of every pair,
    in place: converting twice gives the list back, and the bounding box of
    the converted ring is the box of the original one with latitudes and
    longitudes exchanged. *)
Theorem convertGeojson_swaps (coordsList : list (Q * Q)) :
  convertGeojsonCoordsToLatLon (convertGeojsonCoordsToLatLon coordsList)
  = coordsList
  /\ List.length (convertGeojsonCoordsToLatLon coordsList)
     = List.length coordsList
  /\ calculateBoundingBox (convertGeojsonCoordsToLatLon coordsList)
     = mkBoundingBox (minLon (calculateBoundingBox coordsList))
         (maxLon (calculateBoundingBox coordsList))
         (minLat (calculateBoundingBox coordsList))
         (maxLat (calculateBoundingBox coordsList)).
Proof.
  unfold convertGeojsonCoordsToLatLon. split; [|split].
  - rewrite map_map. simpl. rewrite <- (map_id coordsList) at 2.
    apply map_ext. now intros [x y].
  - apply length_map.
  - destruct coordsList as [|[x y] rest]; [reflexivity|].
    cbn [map calculateBoundingBox fst snd minLat maxLat minLon maxLon].
    rewrite !map_map. cbn [fst snd].
    reflexivity.
Qed.

End PolygonExtra.

(** * Further properties of the scorer *)

Module ConfidenceExtra.
Import Pip Confidence ConfidenceProps.



Lemma penalize_antitone (b n1 n2 : Q) :
  n1 <= n2 -> penalize b n2 <= penalize b n1.
Proof.
  intros H. unfold penalize, Qltb.
  qcases n1 1; qcases n2 1; cbn [negb]; qminmax; lra.
Qed.

Lemma penalize_saturates (b n : Q) :
  5 <= n -> penalize b n == penalize b 5.
Proof.
  intros H. unfold penalize, Qltb.
  qcases n 1; [lra|]. qcases 5 1; [lra|].
  cbn [negb]. qminmax; lra.
Qed.

Lemma penalize_single (b n : Q) :
  n <= 1 -> penalize b n == Qmax 0.5 (Qmin 1.0 b).
Proof.
  intros H. unfold penalize, Qltb.
  qcases n 1; cbn [negb]; [reflexivity | lra].
Qed.

Local Open Scope string_scope.

Lemma getConfidenceLabel_cases (c : Q) :
  (0.90 <= c /\ getConfidenceLabel c = "high")
  \/ (0.75 <= c /\ c < 0.90 /\ getConfidenceLabel c = "medium")
  \/ (c < 0.75 /\ getConfidenceLabel c = "low").
Proof.
  unfold getConfidenceLabel.
  qcases 0.90 c; [left; auto|].
  qcases 0.75 c; [right; left; auto | right; right; auto].
Qed.

(** The base score by the distance to the nearest edge: 0.98 from 0.1
    degrees on, at least 0.75 from 0.01 degrees on, below 0.90 under 0.05
    degrees. *)
Lemma base_bands (d : xnum) :
  (xle (Finite 0.1) d -> baseConfidence d == 0.98)
  /\ (xle (Finite 0.01) d -> 0.75 <= baseConfidence d)
  /\ (0.90 <= baseConfidence d -> xle (Finite 0.05) d).
Proof.
  destruct d as [x|]; cbn [baseConfidence xle];
    [|repeat split; intros; trivial; lra].
  qcases 0.1 x; [|qcases 0.05 x; [|qcases 0.01 x]]; qconst;
    repeat split; intros; lra.
Qed.

Lemma label_of_score (b c : Q) :
  c == Qmax 0.5 (Qmin 1.0 b) ->
  (0.90 <= b -> getConfidenceLabel c = "high")
  /\ (0.75 <= b -> getConfidenceLabel c <> "low")
  /\ (getConfidenceLabel c = "high" -> 0.90 <= b).
Proof.
  intros Hc.
  destruct (getConfidenceLabel_cases c)
    as [[H ->]|[(H1 & H2 & ->)|[H ->]]];
    repeat split; intros; try reflexivity; try discriminate;
    try (exfalso; qminmax; lra); qminmax; lra.
Qed.

Section ScorerExtra.

Variable sqrt : Q -> Q.


(** X17. For the same point and polygon the score does not increase with
    the number of candidates; it is the same for every count of at most one
    and for every count of at least five. *)
Theorem calculateConfidence_candidates (point : Point) (exterior : Polygon)
    (holes : list Polygon) :
  (forall n1 n2, n1 <= n2 ->
     calculateConfidence sqrt point exterior holes n2
     <= calculateConfidence sqrt point exterior holes n1)
  /\ (forall n, n <= 1 ->
        calculateConfidence sqrt point exterior holes n
        == calculateConfidence sqrt point exterior holes 1)
  /\ (forall n, 5 <= n ->
        calculateConfidence sqrt point exterior holes n
        == calculateConfidence sqrt point exterior holes 5).
Proof.
  unfold calculateConfidence. split; [|split].
  - intros n1 n2 H. now apply penalize_antitone.
  - intros n H. rewrite (penalize_single _ n H).
    symmetry. apply penalize_single. lra.
  - intros n H. now apply penalize_saturates.
Qed.

(** X18. With a single candidate: at least 0.1 degrees from every edge,
    or with no edge at all, the score is 0.98 and its label "high"; from
    0.01 degrees on the label is never "low"; and the label is "high" only
    from 0.05 degrees on. *)
Theorem getConfidenceLabel_single (point : Point) (exterior : Polygon)
    (holes : list Polygon) (candidateCount : Q) :
  candidateCount <= 1 ->
  (xle (Finite 0.1) (minEdgeDistance sqrt point exterior holes) ->
   calculateConfidence sqrt point exterior holes candidateCount == 0.98
   /\ getConfidenceLabel
        (calculateConfidence sqrt point exterior holes candidateCount)
      = "high")
  /\ (xle (Finite 0.01) (minEdgeDistance sqrt point exterior holes) ->
      getConfidenceLabel
        (calculateConfidence sqrt point exterior holes candidateCount)
      <> "low")
  /\ (getConfidenceLabel
        (calculateConfidence sqrt point exterior holes candidateCount)
      = "high" ->
      xle (Finite 0.05) (minEdgeDistance sqrt point exterior holes)).
Proof.
  intros H. unfold calculateConfidence.
  set (d := minEdgeDistance sqrt point exterior holes).
  pose proof (penalize_single (baseConfidence d) candidateCount H) as Hp.
  destruct (label_of_score _ _ Hp) as (Hhigh & Hmed & Hinv).
  destruct (base_bands d) as (B1 & B2 & B3).
  split; [|split].
  - intros Hd. specialize (B1 Hd). split.
    + rewrite Hp, B1. reflexivity.
    + apply Hhigh. rewrite B1. lra.
  - intros Hd. apply Hmed, B2, Hd.
  - intros Hl. apply B3, Hinv, Hl.
Qed.






End ScorerExtra.

Lemma getConfidenceLabel_single_witness :
  calculateConfidence Sample.sqrtApprox (3, 3) (Sample.square 0 4)
    [Sample.square 1 2] 1 == 0.98
  /\ getConfidenceLabel
       (calculateConfidence Sample.sqrtApprox (3, 3) (Sample.square 0 4)
          [Sample.square 1 2] 1)
     = "high"%string.
Proof.
  apply (getConfidenceLabel_single Sample.sqrtApprox (3, 3)
           (Sample.square 0 4) [Sample.square 1 2] 1).
  - lra.
  - vm_compute. discriminate.
Defined.

Lemma calculateConfidence_candidates_witness :
  calculateConfidence Sample.sqrtApprox (3, 3) (Sample.square 0 4) [] 3
  <= calculateConfidence Sample.sqrtApprox (3, 3) (Sample.square 0 4) [] 2.
Proof.
  apply (proj1 (calculateConfidence_candidates Sample.sqrtApprox (3, 3)
                  (Sample.square 0 4) [])).
  lra.
Defined.


End ConfidenceExtra.

(** * Further properties of the index lookup *)

Module LoaderExtra.
Import Loader.

Lemma existsb_Zeqb (x : Z) (l : list Z) :
  existsb (Z.eqb x) l = true <-> In x l.
Proof.
  rewrite existsb_exists. split.
  - intros (y & Hy & E). apply Z.eqb_eq in E. now subst.
  - intros H. exists x. split; [exact H | apply Z.eqb_refl].
Qed.

Lemma setAdd_spec (seen : list Z) (x : Z) :
  NoDup seen ->
  NoDup (setAdd Z.eqb seen x)
  /\ forall y, In y (setAdd Z.eqb seen x) <-> In y seen \/ y = x.
Proof.
  intros Hnd. unfold setAdd.
  destruct (existsb (Z.eqb x) seen) eqn:E.
  - apply existsb_Zeqb in E. split; [exact Hnd|].
    intros y. split; [auto | intros [H| ->]; auto].
  - split.
    + apply NoDup_app; [exact Hnd | constructor; [intros [] | constructor] |].
      intros y Hy [<-|[]].
      apply existsb_Zeqb in Hy. congruence.
    + intros y. rewrite in_app_iff. simpl. intuition congruence.
Qed.

Lemma dedupe_fold_spec (xs seen : list Z) :
  NoDup seen ->
  NoDup (fold_left (setAdd Z.eqb) xs seen)
  /\ forall y, In y (fold_left (setAdd Z.eqb) xs seen)
               <-> In y seen \/ In y xs.
Proof.
  revert seen. induction xs as [|x xs IH]; intros seen Hnd; simpl.
  - split; [exact Hnd | intros y; tauto].
  - destruct (setAdd_spec seen x Hnd) as [Hnd' Hin].
    destruct (IH _ Hnd') as [H1 H2]. split; [exact H1|].
    intros y. rewrite H2, Hin. intuition congruence.
Qed.

Lemma dedupe_spec (xs : list Z) :
  NoDup (dedupe Z.eqb xs) /\ forall y, In y (dedupe Z.eqb xs) <-> In y xs.
Proof.
  destruct (dedupe_fold_spec xs [] (NoDup_nil Z)) as [H1 H2].
  split; [exact H1|]. intros y. rewrite (H2 y). simpl. tauto.
Qed.

Lemma dedupe_nil_iff (xs : list Z) : dedupe Z.eqb xs = [] <-> xs = [].
Proof.
  split; [|intros ->; reflexivity].
  intros H. destruct xs as [|x xs]; [reflexivity|].
  assert (Hx : In x (dedupe Z.eqb (x :: xs))).
  { apply dedupe_spec. now left. }
  rewrite H in Hx. destruct Hx.
Qed.

(** X20. The candidates of a geohash contain no country twice; when the
    geohash is a key of the index with a non-empty list, they are the
    countries of that list and no prefix is looked at. *)
Theorem getCandidateCountries_exact (loader : DataLoader) (geohash : string) :
  NoDup (getCandidateCountries loader geohash)
  /\ (forall ids,
        lookup String.eqb geohash (geohashIndex loader) = Some ids ->
        ids <> [] ->
        forall id, In id (getCandidateCountries loader geohash) <-> In id ids).
Proof.
  unfold getCandidateCountries. split.
  - apply dedupe_spec.
  - intros ids Hl Hne id. rewrite Hl.
    destruct ids as [|x ids]; [congruence|].
    cbn [List.length Nat.eqb]. apply dedupe_spec.
Qed.

Lemma getCandidateCountries_exact_witness :
  In 1%Z (getCandidateCountries Sample.loader "h") <-> In 1%Z [1%Z].
Proof.
  apply (proj2 (getCandidateCountries_exact Sample.loader "h") [1%Z]).
  - reflexivity.
  - discriminate.
Defined.

Lemma prefixCandidates_skip (index : list (string * list Z))
    (geohash : string) (n k : nat) :
  (n <= k)%nat ->
  (forall m, (n < m <= k)%nat ->
             lookup String.eqb (substring 0 m geohash) index = None) ->
  prefixCandidates index geohash k = prefixCandidates index geohash n.
Proof.
  induction k as [|k IH]; intros Hle Hnone.
  - now replace n with 0%nat by lia.
  - destruct (Nat.eq_dec n (S k)) as [->|Hneq]; [reflexivity|].
    cbn [prefixCandidates]. rewrite (Hnone (S k)) by lia.
    apply IH; [lia|]. intros m Hm. apply Hnone. lia.
Qed.

(** X21. When the geohash itself gives no candidate, the candidates are
    those of its longest prefix that is a key of the index, and there are
    none when no prefix of at least one character is a key. *)
Theorem getCandidateCountries_prefix (loader : DataLoader) (geohash : string) :
  lookup String.eqb geohash (geohashIndex loader) = None
  \/ lookup String.eqb geohash (geohashIndex loader) = Some [] ->
  (forall n ids,
      (1 <= n <= String.length geohash)%nat ->
      lookup String.eqb (substring 0 n geohash) (geohashIndex loader)
      = Some ids ->
      (forall m, (n < m <= String.length geohash)%nat ->
                 lookup String.eqb (substring 0 m geohash)
                   (geohashIndex loader) = None) ->
      forall id, In id (getCandidateCountries loader geohash) <-> In id ids)
  /\ ((forall m, (1 <= m <= String.length geohash)%nat ->
                 lookup String.eqb (substring 0 m geohash)
                   (geohashIndex loader) = None) ->
      getCandidateCountries loader geohash = []).
Proof.
  intros Hmiss.
  assert (Hpre : getCandidateCountries loader geohash
                 = dedupe Z.eqb
                     (prefixCandidates (geohashIndex loader) geohash
                        (String.length geohash))).
  { unfold getCandidateCountries. now destruct Hmiss as [-> | ->]. }
  rewrite Hpre. split.
  - intros n ids Hn Hl Hnone id.
    rewrite (prefixCandidates_skip _ _ n) by (try lia; exact Hnone).
    destruct n as [|n]; [lia|].
    cbn [prefixCandidates]. rewrite Hl. apply dedupe_spec.
  - intros Hnone.
    rewrite (prefixCandidates_skip _ _ 0) by (try lia; intros m Hm; apply Hnone; lia).
    reflexivity.
Qed.

Lemma getCandidateCountries_prefix_witness :
  In 1%Z (getCandidateCountries Sample.loader "h1w3s7") <-> In 1%Z [1%Z].
Proof.
  apply (proj1 (getCandidateCountries_prefix Sample.loader "h1w3s7"
                  (or_introl eq_refl)) 1%nat [1%Z]).
  - simpl. lia.
  - reflexivity.
  - intros m Hm. simpl in Hm.
    assert (H : (m = 2 \/ m = 3 \/ m = 4 \/ m = 5 \/ m = 6)%nat) by lia.
    destruct H as [->|[->|[->|[->| ->]]]]; reflexivity.
Defined.

End LoaderExtra.

(** * Further properties of the forward resolver *)

Module ResolverExtra.
Import Pip Loader Resolver GeohashProps ResolverProps.

Section ResolveExtra.

Variable sqrt : Q -> Q.


(** When the two scans complete on a point that the record of a country of
    the metadata table contains, they record a match. *)
Lemma allMatches_some (loader : DataLoader) (point : Point) (cs : list Z)
    (ms : list (Z * Q)) (id : Z) (pd : PolygonData) :
  allMatches sqrt loader point cs = Ok ms ->
  In id (map fst (metadata loader)) ->
  getPolygon loader id = Some pd ->
  containedIn point pd ->
  ms <> [].
Proof.
  unfold allMatches. intros H Hid Hpd Hc.
  apply bind_ok in H as (pm & Hprim & H).
  destruct pm as [|m pm']; cbn [List.length Nat.eqb] in H.
  - destruct (in_dec Z.eq_dec id cs) as [Hin|Hnin].
    + exfalso.
      destruct (primaryMatches_scanned sqrt loader point _ cs _ id pd
                  Hprim Hin Hpd) as ([c|] & Hs).
      * assert (Hm : In (id, c) []).
        { apply (primaryMatches_In sqrt _ _ _ _ _ id c Hprim). eauto. }
        destruct Hm.
      * rewrite scanExteriors_scanWith in Hs.
        exact (scanWith_contained _ _ _ _ _ checkedPoints_converts Hc Hs
                 eq_refl).
    + destruct (fallbackMatches_scanned sqrt loader point cs _ ms id pd
                  H Hid Hnin Hpd) as ([c|] & Hs).
      * assert (Hm : In (id, c) ms).
        { apply (fallbackMatches_In sqrt _ _ _ _ _ id c H). eauto 6. }
        intros ->. destruct Hm.
      * exfalso. rewrite scanExteriorsFallback_scanWith in Hs.
        exact (scanWith_contained _ _ _ _ _ toPoints_converts Hc Hs eq_refl).
  - injection H as <-. discriminate.
Qed.

(** X23. A point in range that lies in the polygon of a country of the
    metadata table is never reported as a no-match: every result of
    [resolve] for it names a country. *)
Theorem resolve_complete (lat lon : Q) (loader : DataLoader) (id : Z)
    (pd : PolygonData) :
  inRange lat lon ->
  In id (map fst (metadata loader)) ->
  getPolygon loader id = Some pd ->
  containedIn (lat, lon) pd ->
  resolve sqrt lat lon loader <> Ok noMatch
  /\ forall r, resolve sqrt lat lon loader = Ok r -> countryId r <> None.
Proof.
  intros Hr Hid Hpd Hc.
  destruct (resolve_in_range sqrt lat lon loader Hr)
    as (g & cs & _ & _ & Hres).
  rewrite Hres.
  destruct (allMatches sqrt loader (lat, lon) cs) as [ms|e] eqn:Hms; simpl.
  - pose proof (allMatches_some loader (lat, lon) cs ms id pd Hms Hid Hpd Hc)
      as Hne.
    rewrite selectBest_selectedOf.
    destruct ms as [|m ms']; [congruence|].
    cbn [selectedOf].
    destruct (hd m (sortMatches (m :: ms'))) as [id' c].
    destruct (getMetadata loader id'); split; try discriminate;
      intros r [= <-]; discriminate.
  - split; [discriminate | intros r; discriminate].
Qed.

Lemma hd_insertMatch (m d : Z * Q) (s : list (Z * Q)) :
  hd d (insertMatch m s)
  = match s with
    | [] => m
    | m' :: _ => if Qle_bool (snd m') (snd m) then m else m'
    end.
Proof.
  destruct s as [|m' s]; [reflexivity|]. simpl.
  now destruct (Qle_bool (snd m') (snd m)).
Qed.

Lemma sortMatches_nonempty (l : list (Z * Q)) :
  l <> [] -> sortMatches l <> [].
Proof.
  destruct l as [|m l]; [congruence|]. intros _ H.
  assert (Hin : In m (sortMatches (m :: l))) by (apply sortMatches_In; now left).
  rewrite H in Hin. destruct Hin.
Qed.

(** The first element of the sorted matches is the first of the matches
    with the highest confidence. *)
Lemma sortMatches_hd_first_best (l : list (Z * Q)) (d : Z * Q) :
  l <> [] ->
  exists pre post,
    l = pre ++ hd d (sortMatches l) :: post
    /\ (forall x, In x pre -> snd x < snd (hd d (sortMatches l)))
    /\ (forall x, In x post -> snd x <= snd (hd d (sortMatches l))).
Proof.
  induction l as [|m rest IH]; [congruence|]. intros _.
  cbn [sortMatches fold_right]. fold (sortMatches rest).
  rewrite hd_insertMatch.
  destruct rest as [|m1 rest1].
  - exists [], []. simpl. repeat split; intros x [].
  - destruct (IH ltac:(discriminate)) as (pre & post & Heq & Hpre & Hpost).
    pose proof (sortMatches_nonempty (m1 :: rest1) ltac:(discriminate)) as Hne.
    set (rest := m1 :: rest1) in *.
    destruct (sortMatches rest) as [|h s] eqn:Es; [congruence|].
    cbn [hd] in *.
    qcases (snd h) (snd m).
    + exists [], rest. split; [reflexivity|]. split; [intros x []|].
      intros x Hx. rewrite Heq in Hx.
      apply in_app_or in Hx as [Hx|[<-|Hx]].
      * specialize (Hpre x Hx). lra.
      * exact Hc.
      * specialize (Hpost x Hx). lra.
    + exists (m :: pre), post. split; [now rewrite Heq|].
      split; [|exact Hpost].
      intros x [<-|Hx]; [exact Hc | auto].
Qed.

(** X24. The country returned by [resolve] is the first match with the
    highest confidence: every match found before it has a strictly lower
    confidence and no match found after it has a higher one. *)
Theorem resolve_first_best (lat lon : Q) (loader : DataLoader)
    (r : ResolutionResult) (id : Z) :
  resolve sqrt lat lon loader = Ok r ->
  countryId r = Some id ->
  exists g cs pre post,
    Geohash.encode lat lon Geohash.GEOHASH_PRECISION = Ok g
    /\ findCandidates loader g = Ok cs
    /\ allMatches sqrt loader (lat, lon) cs
       = Ok (pre ++ (id, confidence r) :: post)%list
    /\ (forall x, In x pre -> snd x < confidence r)
    /\ (forall x, In x post -> snd x <= confidence r).
Proof.
  intros H Hid.
  apply resolve_ok in H as (g & cs & ms & Hg & Hcs & Hms & H).
  rewrite selectBest_selectedOf in H.
  exists g, cs.
  destruct ms as [|m ms'].
  - simpl in H. injection H as <-. discriminate.
  - cbn [selectedOf] in H.
    destruct (sortMatches_hd_first_best (m :: ms') m ltac:(discriminate))
      as (pre & post & Heq & Hpre & Hpost).
    destruct (hd m (sortMatches (m :: ms'))) as [id' c].
    destruct (getMetadata loader id'); [|discriminate].
    injection H as <-. simpl in Hid. injection Hid as ->.
    exists pre, post. simpl. rewrite Hms, Heq. auto.
Qed.

End ResolveExtra.


Lemma resolve_complete_witness :
  resolve Sample.sqrtApprox 10.5 10.5 Sample.loader <> Ok noMatch
  /\ forall r, resolve Sample.sqrtApprox 10.5 10.5 Sample.loader = Ok r ->
               countryId r <> None.
Proof.
  apply (resolve_complete Sample.sqrtApprox 10.5 10.5 Sample.loader 2%Z
           (mkPolygonData None None true
              (Some [ringOf (Sample.square 20 21); [];
                     ringOf (Sample.square 10 11)]))).
  - unfold inRange. lra.
  - right. now left.
  - reflexivity.
  - exists (Sample.square 10 11), [].
    split; [right; right; now left|]. split; reflexivity.
Defined.

Lemma resolve_first_best_witness :
  exists r g cs pre post,
    resolve Sample.sqrtApprox 3 3 Sample.loader = Ok r
    /\ Geohash.encode 3 3 Geohash.GEOHASH_PRECISION = Ok g
    /\ findCandidates Sample.loader g = Ok cs
    /\ allMatches Sample.sqrtApprox Sample.loader (3, 3) cs
       = Ok (pre ++ (1%Z, confidence r) :: post)%list
    /\ (forall x, In x pre -> snd x < confidence r)
    /\ (forall x, In x post -> snd x <= confidence r).
Proof.
  assert (H : exists r, resolve Sample.sqrtApprox 3 3 Sample.loader = Ok r
                        /\ countryId r = Some 1%Z).
  { eexists. split; vm_compute; reflexivity. }
  destruct H as (r & H & Hid).
  destruct (resolve_first_best Sample.sqrtApprox 3 3 Sample.loader r 1%Z H
              Hid) as (g & cs & pre & post & H1 & H2 & H3 & H4 & H5).
  exists r, g, cs, pre, post. auto 10.
Defined.

End ResolverExtra.

(** * Further properties of the reverse resolver *)

Module ReverseExtra.
Import Pip Loader Reverse ReverseProps.
Local Open Scope string_scope.

Lemma upperChar_facts (c : ascii) :
  isWhitespace (upperChar c) = isWhitespace c
  /\ upperChar (upperChar c) = upperChar c
  /\ lowerChar (upperChar c) = lowerChar c.
Proof.
  destruct c as [[] [] [] [] [] [] [] []]; repeat split; reflexivity.
Qed.

Lemma lowerChar_facts (c : ascii) :
  isWhitespace (lowerChar c) = isWhitespace c
  /\ upperChar (lowerChar c) = upperChar c
  /\ lowerChar (lowerChar c) = lowerChar c.
Proof.
  destruct c as [[] [] [] [] [] [] [] []]; repeat split; reflexivity.
Qed.

Lemma mapString_mapString (f g : ascii -> ascii) (s : string) :
  mapString f (mapString g s) = mapString (fun c => f (g c)) s.
Proof. induction s; simpl; congruence. Qed.

Lemma mapString_ext (f g : ascii -> ascii) (s : string) :
  (forall c, f c = g c) -> mapString f s = mapString g s.
Proof. intros H. induction s; simpl; congruence. Qed.

Lemma trimStart_mapString (f : ascii -> ascii) (s : string) :
  (forall c, isWhitespace (f c) = isWhitespace c) ->
  trimStart (mapString f s) = mapString f (trimStart s).
Proof.
  intros H. induction s as [|c s IH]; simpl; [reflexivity|].
  rewrite H. now destruct (isWhitespace c).
Qed.

Lemma trimEnd_mapString (f : ascii -> ascii) (s : string) :
  (forall c, isWhitespace (f c) = isWhitespace c) ->
  trimEnd (mapString f s) = mapString f (trimEnd s).
Proof.
  intros H. induction s as [|c s IH]; simpl; [reflexivity|].
  rewrite IH. destruct (trimEnd s) as [|d t]; simpl.
  - rewrite H. now destruct (isWhitespace c).
  - reflexivity.
Qed.

Lemma trim_mapString (f : ascii -> ascii) (s : string) :
  (forall c, isWhitespace (f c) = isWhitespace c) ->
  trim (mapString f s) = mapString f (trim s).
Proof.
  intros H. unfold trim.
  now rewrite trimStart_mapString, trimEnd_mapString.
Qed.

(** X25. The lookup ignores the case of the ASCII letters of its input:
    the upper-cased and the lower-cased identifier find what the identifier
    itself finds. *)
Theorem findCountry_case_insensitive (countryInput : string)
    (loader : DataLoader) :
  findCountryByNameOrIso (toUpperCase countryInput) loader
  = findCountryByNameOrIso countryInput loader
  /\ findCountryByNameOrIso (toLowerCase countryInput) loader
     = findCountryByNameOrIso countryInput loader.
Proof.
  unfold findCountryByNameOrIso, normalizeCountryName, toUpperCase,
    toLowerCase.
  split.
  - rewrite (trim_mapString upperChar)
      by (intros c; apply upperChar_facts).
    rewrite !mapString_mapString.
    rewrite (mapString_ext (fun c => upperChar (upperChar c)) upperChar)
      by (intros c; apply upperChar_facts).
    rewrite (mapString_ext (fun c => lowerChar (upperChar c)) lowerChar)
      by (intros c; apply upperChar_facts).
    reflexivity.
  - rewrite (trim_mapString lowerChar)
      by (intros c; apply lowerChar_facts).
    rewrite !mapString_mapString.
    rewrite (mapString_ext (fun c => upperChar (lowerChar c)) upperChar)
      by (intros c; apply lowerChar_facts).
    rewrite (mapString_ext (fun c => lowerChar (lowerChar c)) lowerChar)
      by (intros c; apply lowerChar_facts).
    reflexivity.
Qed.

Lemma exactLoop_none_inv (ni nn : string)
    (entries : list (Z * CountryMetadata)) :
  exactLoop ni nn entries = None ->
  forall r, In r entries -> exactMatches ni nn (snd r) = false.
Proof.
  induction entries as [|[id m] rest IH]; intros H r Hr; [destruct Hr|].
  simpl in H. unfold exactMatches.
  destruct (iso2Matches ni m) eqn:E2; [discriminate|].
  destruct (iso3Matches ni m) eqn:E3; [discriminate|].
  destruct (nameMatches nn m) eqn:En; [discriminate|].
  destruct Hr as [<-|Hr].
  - simpl. now rewrite E2, E3, En.
  - exact (IH H r Hr).
Qed.

Lemma partialLoop_none_inv (nn : string)
    (entries : list (Z * CountryMetadata)) :
  partialLoop nn entries = None ->
  forall r, In r entries -> partialMatches nn (snd r) = false.
Proof.
  induction entries as [|[id m] rest IH]; intros H r Hr; [destruct Hr|].
  simpl in H.
  destruct (partialMatches nn m) eqn:E; [discriminate|].
  destruct Hr as [<-|Hr]; [exact E | exact (IH H r Hr)].
Qed.

(** X26. [resolveByCountry] reports the identifier as not found exactly
    when no record of the metadata table matches it, neither exactly nor by
    containment of the normalized names. *)
Theorem resolveByCountry_not_found_iff (countryInput : string)
    (loader : DataLoader) :
  resolveByCountry countryInput loader = Err (CountryNotFound countryInput)
  <-> forall r, In r (metadata loader) ->
        exactMatches (toUpperCase (trim countryInput))
          (normalizeCountryName countryInput) (snd r) = false
        /\ partialMatches (normalizeCountryName countryInput) (snd r) = false.
Proof.
  split.
  - intros H.
    destruct (findCountryByNameOrIso countryInput loader) as [found|] eqn:E.
    + exfalso.
      exact (resolveByCountry_found countryInput loader found E _ H).
    + unfold findCountryByNameOrIso in E.
      destruct (exactLoop _ _ (metadata loader)) eqn:Ex; [discriminate|].
      intros r Hr. split.
      * eapply exactLoop_none_inv; eauto.
      * eapply partialLoop_none_inv; eauto.
  - intros H. unfold resolveByCountry, findCountryByNameOrIso.
    rewrite exactLoop_none by (intros r Hr; now apply H).
    rewrite partialLoop_none by (intros r Hr; now apply H).
    reflexivity.
Qed.

Lemma centroids_null (exts : list Ring) :
  (exists e, In e exts /\ In None e) ->
  centroids exts = Err InvalidCoordinateFormat.
Proof.
  induction exts as [|x rest IH]; intros (e & Hin & Hn); [destruct Hin|].
  simpl. destruct (Resolver.isEmpty x) eqn:Ex.
  - apply IH. exists e. split; [|exact Hn].
    destruct Hin as [<-|Hin]; [|exact Hin].
    apply ResolverProps.isEmpty_true in Ex. subst x. destruct Hn.
  - destruct (Resolver.checkedPoints x) as [pts|e'] eqn:Ec; simpl.
    + rewrite IH; [reflexivity|]. exists e. split; [|exact Hn].
      destruct Hin as [<-|Hin]; [|exact Hin]. exfalso.
      apply ResolverProps.checkedPoints_converts in Ec. subst x.
      exact (ResolverProps.ringOf_nullFree pts Hn).
    + apply ResolverProps.checkedPoints_err in Ec as [-> _]. reflexivity.
Qed.

Lemma centroids_ok (exts : list Ring) :
  (forall e, In e exts -> ~ In None e) ->
  exists cs, centroids exts = Ok cs
             /\ (cs = [] <-> forall e, In e exts -> e = []).
Proof.
  induction exts as [|x rest IH]; intros Hnf; simpl.
  - exists []. split; [reflexivity|]. split; [intros _ e [] | reflexivity].
  - destruct IH as (cs & Hc & Hiff); [intros e He; apply Hnf; now right|].
    destruct (Resolver.isEmpty x) eqn:Ex.
    + apply ResolverProps.isEmpty_true in Ex. subst x.
      exists cs. split; [exact Hc|]. rewrite Hiff. split.
      * intros H e [<-|He]; auto.
      * intros H e He. apply H. now right.
    + destruct (ResolverProps.nullFree_ringOf x) as (pts & ->);
        [apply Hnf; now left|].
      rewrite (proj2 (ResolverProps.checkedPoints_converts _ pts) eq_refl).
      rewrite Hc. simpl. eexists. split; [reflexivity|].
      split; [discriminate|].
      intros H. rewrite (H _ (or_introl eq_refl)) in Ex. discriminate.
Qed.

(** X27. Once a record is found, [resolveByCountry] fails only on its
    polygon: no polygon record, a record without exteriors, an exterior
    that holds a coordinate that is not a pair, or exteriors that are all
    empty; otherwise it returns coordinates, the fields of the metadata
    record and the confidence 1. *)
Theorem resolveByCountry_outcomes (countryInput : string)
    (loader : DataLoader) (id : Z) (meta : CountryMetadata) :
  findCountryByNameOrIso countryInput loader = Some (id, meta) ->
  (getPolygon loader id = None ->
   resolveByCountry countryInput loader = Err (PolygonNotFound id))
  /\ (forall pd, getPolygon loader id = Some pd ->
        (Resolver.exteriorsOf pd = [] ->
         resolveByCountry countryInput loader = Err (InvalidPolygonData id))
        /\ ((exists e, In e (Resolver.exteriorsOf pd) /\ In None e) ->
            resolveByCountry countryInput loader
            = Err InvalidCoordinateFormat)
        /\ (Resolver.exteriorsOf pd <> [] ->
            (forall e, In e (Resolver.exteriorsOf pd) -> e = []) ->
            resolveByCountry countryInput loader = Err (NoValidExteriors id))
        /\ ((exists e, In e (Resolver.exteriorsOf pd) /\ e <> []) ->
            (forall e, In e (Resolver.exteriorsOf pd) -> ~ In None e) ->
            exists la lo,
              resolveByCountry countryInput loader
              = Ok (mkReverseResolutionResult (Some la) (Some lo)
                      (Some (Loader.name meta)) (Some (Loader.iso2 meta))
                      (Some (Loader.iso3 meta))
                      (Some (Loader.continent meta))
                      (Some (Loader.timezone meta)) 1.0))).
Proof.
  intros Hf. unfold resolveByCountry. rewrite Hf. split.
  - intros ->. reflexivity.
  - intros pd ->. split; [|split; [|split]].
    + intros ->. reflexivity.
    + intros Hnull. rewrite (centroids_null _ Hnull).
      destruct (Resolver.exteriorsOf pd) as [|e es];
        [destruct Hnull as (e & [] & _) | reflexivity].
    + intros Hne Hall.
      destruct (centroids_ok (Resolver.exteriorsOf pd)) as (cs & Hc & Hiff).
      { intros e He Hn. rewrite (Hall e He) in Hn. destruct Hn. }
      rewrite Hc. apply Hiff in Hall. subst cs.
      destruct (Resolver.exteriorsOf pd) as [|e es]; [congruence|].
      reflexivity.
    + intros (e & He & Hne) Hnf.
      destruct (centroids_ok (Resolver.exteriorsOf pd) Hnf)
        as (cs & Hc & Hiff).
      rewrite Hc.
      destruct (Resolver.exteriorsOf pd) as [|e0 es] eqn:Ee;
        [destruct He|].
      cbn [List.length Nat.eqb bind].
      destruct cs as [|c cs'].
      * exfalso. apply Hne. exact (proj1 Hiff eq_refl e He).
      * cbn [List.length Nat.eqb]. eauto.
Qed.

Lemma resolveByCountry_outcomes_witness :
  exists la lo,
    resolveByCountry "atl" Sample.loader
    = Ok (mkReverseResolutionResult (Some la) (Some lo) (Some "Atlantis")
            (Some "AT") (Some "ATL") (Some "Europe")
            (Some "Europe/Atlantis") 1.0).
Proof.
  destruct (resolveByCountry_outcomes "atl" Sample.loader 1%Z
              (mkCountryMetadata "Atlantis" "AT" "ATL" "Europe"
                 "Europe/Atlantis") eq_refl) as [_ H].
  destruct (H (mkPolygonData (Some (ringOf (Sample.square 0 4)))
                 (Some [ringOf (Sample.square 1 2)]) false None)
              eq_refl)
    as (_ & _ & _ & Hok).
  apply Hok.
  - exists (ringOf (Sample.square 0 4)).
    split; [now left | discriminate].
  - intros e [<-|[]].
    exact (ResolverProps.ringOf_nullFree (Sample.square 0 4)).
Defined.



End ReverseExtra.
